(** * Downloading_Data_TATOR_API: frames and Pascal-VOC annotations

    A shallow embedding of the notebook
    [Notebooks/Downloading_Data_TATOR_API.ipynb]: the helper
    [download_image], the media check, the localization collector and the
    cell that downloads the frames, reshapes the localizations and writes
    one Pascal-VOC file per frame.

    Python values are modelled as follows.
    - [int] is [Z]; [str] is [string]; [float] is IEEE binary64, in the
      executable specification [spec_float] of the Standard Library.
    - a [dict] is a [gmap]; [list(set(...))] is [elements] of a [gset].
    - an exception aborts the run: effectful code lives in the monad [M]
      (a world of files and a log of effects, and a result that is either a
      value or the exception raised); pure code that can raise lives in
      [result].
    - the TATOR client is a record [Api] of total functions (a failing
      request is not modelled); the Pascal-VOC writer is the record
      [Writer], a document being its path, its size and its objects.
    - the thread pool of the download step is run in submission order.
    - paths are POSIX paths, and a file system is a map from paths to
      files: directories are not modelled, a move or a save to a path
      finds its directory.
    The conversion of [media_w_localizations] to an array of objects keeps
    its rows and their six fields, and is left out.  The two cells that
    only display data write no file and are not part of [notebook]: the
    class histogram is not modelled, the preview of the first localization
    is the expression [first_localization]. *)

From Stdlib Require Import ZArith Ascii Floats.SpecFloat.
From stdpp Require Import gmap strings list pretty.

Local Open Scope Z_scope.

(** ** Exceptions and results *)

Inductive Exception :=
  | KeyError (key : string)
  | IndexError
  | ValueError
  | OverflowError
  | FileNotFoundError (path : string).

Inductive result (A : Type) :=
  | Ok (a : A)
  | Raise (e : Exception).
Arguments Ok {A} a.
Arguments Raise {A} e.

Global Instance result_ret : MRet result := λ A a, Ok a.
Global Instance result_bind : MBind result := λ A B k r,
  match r with
  | Ok a => k a
  | Raise e => Raise e
  end.

(** [for x in l: acc = f acc x], where the body can raise. *)
Fixpoint rfold {A B} (f : A → B → result A) (acc : A) (l : list B) : result A :=
  match l with
  | [] => Ok acc
  | x :: l' => acc' ← f acc x; rfold f acc' l'
  end.

(** [[f x for x in l]], where [f] can raise. *)
Fixpoint rmap {A B} (f : A → result B) (l : list A) : result (list B) :=
  match l with
  | [] => Ok []
  | x :: l' => y ← f x; ys ← rmap f l'; Ok (y :: ys)
  end.

(** ** Strings *)

Module Str.

(** [c in s], for a character [c]. *)
Fixpoint contains (c : ascii) (s : string) : bool :=
  match s with
  | "" => false
  | String a s' => if decide (a = c) then true else contains c s'
  end.

(** [s.startswith(p)]. *)
Fixpoint startswith (p s : string) : bool :=
  match p, s with
  | "", _ => true
  | String a p', String b s' => if decide (a = b) then startswith p' s' else false
  | String _ _, "" => false
  end.

(** [s.endswith(p)]: [p] is [s] or ends what follows its first
    character. *)
Fixpoint endswith (p s : string) : bool :=
  match s with
  | "" => bool_decide (p = "")
  | String _ s' => bool_decide (p = s) || endswith p s'
  end.

(** [s.replace(old, new)] for a non-empty [old]: the occurrences of
    [old] are found from the left and do not overlap.  [skip] counts the
    characters of a matched occurrence that are still to be dropped. *)
Fixpoint replace_go (old new : string) (skip : nat) (s : string) : string :=
  match s with
  | "" => ""
  | String a s' =>
      match skip with
      | S k => replace_go old new k s'
      | O =>
          if startswith old s
          then new +:+ replace_go old new (Nat.pred (String.length old)) s'
          else String a (replace_go old new O s')
      end
  end.
Definition replace (old new s : string) : string := replace_go old new O s.

(** [s.split(sep)] for a one-character separator, as the first field and
    the list of the following ones: the result of [split] is never
    empty, so [s.split(sep)[0]] is the first component. *)
Fixpoint split (sep : ascii) (s : string) : string * list string :=
  match s with
  | "" => ("", [])
  | String a s' =>
      let '(hd, tl) := split sep s' in
      if decide (a = sep) then ("", hd :: tl) else (String a hd, tl)
  end.

(** [os.path.basename(p)] (POSIX): what follows the last slash. *)
Definition basename (p : string) : string :=
  let '(hd, tl) := split "/" p in List.last tl hd.

End Str.

(** ** Floats *)

Module PyFloat.

(** Python's [float] is IEEE binary64. *)
Definition prec : Z := 53.
Definition emax : Z := 1024.

(** [float(n)] as it happens inside [f * n]: the nearest float, ties to
    even; an [int] beyond the range raises [OverflowError]. *)
Definition of_int (n : Z) : result spec_float :=
  match binary_normalize prec emax n 0 false with
  | S754_infinity _ => Raise OverflowError
  | f => Ok f
  end.

(** [f * n] for a float [f] and an int [n]. *)
Definition mul_int (f : spec_float) (n : Z) : result spec_float :=
  g ← of_int n; Ok (SFmul prec emax f g).

(** [int(f)]: truncation towards zero; [ValueError] on a NaN and
    [OverflowError] on an infinity. *)
Definition to_int (f : spec_float) : result Z :=
  match f with
  | S754_zero _ => Ok 0
  | S754_finite s m e => Ok (cond_Zopp s (Z.shiftl (Zpos m) e))
  | S754_infinity _ => Raise OverflowError
  | S754_nan => Raise ValueError
  end.

(** [round(f)]: the nearest integer, ties to even. *)
Definition round_half_even (m : Z) (k : Z) : Z :=
  let q := m / 2 ^ k in
  let r := m mod 2 ^ k in
  match 2 * r ?= 2 ^ k with
  | Lt => q
  | Gt => q + 1
  | Eq => if Z.even q then q else q + 1
  end.
Definition round (f : spec_float) : result Z :=
  match f with
  | S754_zero _ => Ok 0
  | S754_finite s m e =>
      Ok (cond_Zopp s (if 0 <=? e then Zpos m * 2 ^ e
                       else round_half_even (Zpos m) (- e)))
  | S754_infinity _ => Raise OverflowError
  | S754_nan => Raise ValueError
  end.

End PyFloat.

(** ** The data of the TATOR client *)

Module Media.
Record t := mk { name : string; id : Z; width : Z; height : Z }.
End Media.

Module Localization.
Record t := mk {
  id : Z;
  frame : Z;
  x : spec_float;
  y : spec_float;
  width : spec_float;
  height : spec_float;
  attributes : gmap string string;
}.
End Localization.

Module Track.
Record t := mk { localizations : list Localization.t }.
End Track.

(** The four requests of the client that the notebook uses.  [get_frame]
    gives the path of the temporary file in which the client stores the
    image it fetched. *)
Record Api := {
  get_media_list : Z → list Media.t;
  get_localization_list : Z → list Z → list Localization.t;
  get_state_list : Z → list Z → list Track.t;
  get_frame : Z → list Z → string;
}.

(** ** The Pascal-VOC writer *)

Module Writer.
Record object := mk_object {
  name : string; xmin : Z; ymin : Z; xmax : Z; ymax : Z
}.
Record t := mk {
  path : string; width : Z; height : Z; objects : list object
}.

(** [Writer(path, width=..., height=...)]. *)
Definition new (path : string) (width height : Z) : t := mk path width height [].

(** [writer.addObject(name, xmin=..., ymin=..., xmax=..., ymax=...)]. *)
Definition addObject (w : t) (name : string) (xmin ymin xmax ymax : Z) : t :=
  mk (path w) (width w) (height w)
     (objects w ++ [mk_object name xmin ymin xmax ymax]).
End Writer.

(** ** The world: files, and the log of what the run did *)

Inductive File :=
  | Jpeg (media_id : Z) (frames : list Z)
  | Xml (doc : Writer.t).

Inductive Event :=
  | Print (line : string)
  | GetFrame (media_id : Z) (frames : list Z)
  | Move (src dst : string)
  | Save (path : string) (doc : Writer.t).

Record World := mkWorld { files : gmap string File; log : list Event }.

Record M (A : Type) := mkM { run : World → result A * World }.
Arguments mkM {A} run.
Arguments run {A} m w.

Global Instance M_ret : MRet M := λ A a, mkM (λ w, (Ok a, w)).
Global Instance M_bind : MBind M := λ A B k m,
  mkM (λ w, match run m w with
            | (Ok a, w') => run (k a) w'
            | (Raise e, w') => (Raise e, w')
            end).

(** A pure computation that can raise, inside a cell. *)
Definition lift {A} (r : result A) : M A := mkM (λ w, (r, w)).

(** [for x in l: body x]. *)
Fixpoint mfor {A} (l : list A) (body : A → M unit) : M unit :=
  match l with
  | [] => mret ()
  | x :: l' => body x;; mfor l' body
  end.

(** [[f x for x in l]] for an effectful [f]. *)
Fixpoint mmap {A B} (f : A → M B) (l : list A) : M (list B) :=
  match l with
  | [] => mret []
  | x :: l' => y ← f x; ys ← mmap f l'; mret (y :: ys)
  end.

(** The world with one more event in its log. *)
Definition emit (e : Event) (w : World) : World :=
  mkWorld (files w) (log w ++ [e]).

(** [print(line)]. *)
Definition print (line : string) : M unit :=
  mkM (λ w, (Ok (), emit (Print line) w)).

(** [os.path.exists(p)]. *)
Definition os_path_exists (p : string) : M bool :=
  mkM (λ w, (Ok (bool_decide (is_Some (files w !! p))), w)).

(** [api.get_frame(media_id, frames=...)]: the image is fetched into a
    temporary file, whose path is returned. *)
Definition api_get_frame (api : Api) (media_id : Z) (frames : list Z) : M string :=
  mkM (λ w,
    let src := get_frame api media_id frames in
    (Ok src, emit (GetFrame media_id frames)
               (mkWorld (<[src := Jpeg media_id frames]> (files w)) (log w)))).

(** [shutil.move(src, dst)]. *)
Definition shutil_move (src dst : string) : M unit :=
  mkM (λ w,
    match files w !! src with
    | Some f =>
        (Ok (), emit (Move src dst)
                  (mkWorld (<[dst := f]> (delete src (files w))) (log w)))
    | None => (Raise (FileNotFoundError src), w)
    end).

(** [writer.save(annotation_path)]: the file is created or overwritten. *)
Definition writer_save (writer : Writer.t) (annotation_path : string) : M unit :=
  mkM (λ w,
    (Ok (), emit (Save annotation_path writer)
              (mkWorld (<[annotation_path := Xml writer]> (files w)) (log w)))).

(** [d[k]]. *)
Definition getitem `{Countable K} {V} (repr : K → string)
    (d : gmap K V) (k : K) : result V :=
  match d !! k with
  | Some v => Ok v
  | None => Raise (KeyError (repr k))
  end.

(** [l[i]] for a natural index. *)
Definition index {A} (l : list A) (i : nat) : result A :=
  match l !! i with
  | Some a => Ok a
  | None => Raise IndexError
  end.

(** ** The helper [download_image] *)

Definition download_image (frame : Z) (media_name media_dir : string)
    (api : Api) (media_id : Z) (download : bool) : M string :=
  (* Location of file on local machine *)
  let dst := media_dir +:+ (Str.split "." media_name).1 +:+ "_"
               +:+ pretty frame +:+ ".jpg" in
  (* If it doesn't already exist, download, move. *)
  present ← os_path_exists dst;
  (if negb present && download
   then src ← api_get_frame api media_id [frame]; shutil_move src dst
   else mret ());;
  mret dst.

(** ** Setting up *)

(* Root data location *)
Definition ROOT : string := "./Data/".
Definition IMAGE_DIR : string := ROOT +:+ "JPEGImages/".
Definition LABEL_DIR : string := ROOT +:+ "Annotations/".

(** ** Grabbing all media from the project, and the media check *)

Definition get_medias (api : Api) (PROJECT_ID : Z) : M (list Media.t) :=
  let medias := get_media_list api PROJECT_ID in
  print ("Number of medias: " +:+ pretty (Z.of_nat (length medias)));;
  mret medias.

Definition check_media (medias_names : list string) (media : string) : M unit :=
  if bool_decide (media ∈ medias_names)
  then print ("This media WAS found: " +:+ media)
  else print ("This media WASN'T found: " +:+ media).

Definition check_medias (MEDIA_LIST : list string) (medias : list Media.t) : M unit :=
  let medias_names := Media.name <$> medias in
  mfor MEDIA_LIST (check_media medias_names).

(** ** Getting the localizations for the media of interest *)

(** What the loops of the collector update: the dict [loc_id_to_class],
    the list [media_localizations] and the global [ALL_CLASSES_LIST]. *)
Record Collected := mkCollected {
  c_loc_id_to_class : gmap Z string;
  c_media_localizations : list Localization.t;
  c_ALL_CLASSES_LIST : list string;
}.

(** The three statements under the [if] of both loops. *)
Definition keep (acc : Collected) (localization : Localization.t)
    : result Collected :=
  class_category ← getitem id (Localization.attributes localization) "ScientificName";
  Ok (mkCollected
        (<[Localization.id localization := class_category]> (c_loc_id_to_class acc))
        (c_media_localizations acc ++ [localization])
        (c_ALL_CLASSES_LIST acc ++ [class_category])).

(** The body of the loop through the localizations of a track. *)
Definition track_body (acc : Collected) (localization : Localization.t)
    : result Collected :=
  if bool_decide (is_Some (Localization.attributes localization !! "ScientifcName"))
  then keep acc localization
  else Ok acc.

(** The body of the loop through the localizations that are not tracks. *)
Definition localization_body (acc : Collected) (localization : Localization.t)
    : result Collected :=
  if bool_decide (is_Some (Localization.attributes localization !! "ScientificName"))
  then keep acc localization
  else Ok acc.

(** One entry of [media_w_localizations]. *)
Record MediaEntry := mkEntry {
  media_name : string;
  media_id : Z;
  media_width : Z;
  media_height : Z;
  localizations : list Localization.t;
  loc_id_to_class : gmap Z string;
}.

(** The two loops over one media, from an empty dict and an empty list. *)
Definition collect_localizations (ALL_CLASSES_LIST : list string)
    (tracks : list Track.t) (localizations : list Localization.t)
    : result Collected :=
  (* Loop through the tracks *)
  acc ← rfold (λ acc track, rfold track_body acc (Track.localizations track))
          (mkCollected ∅ [] ALL_CLASSES_LIST) tracks;
  (* Now we look at all the actual localizations that are not tracks *)
  rfold localization_body acc localizations.

(** The body of the loop through the medias of the project.  The
    accumulator is [media_w_localizations] with [ALL_CLASSES_LIST]. *)
Definition collect_media (api : Api) (PROJECT_ID : Z) (MEDIA_LIST : list string)
    (acc : list MediaEntry * list string) (media : Media.t)
    : M (list MediaEntry * list string) :=
  if bool_decide (Media.name media ∉ MEDIA_LIST) then mret acc
  else
    print ("Collecting metadata for:  " +:+ Media.name media);;
    (* All localizations and tracks for this media *)
    let localizations := get_localization_list api PROJECT_ID [Media.id media] in
    let tracks := get_state_list api PROJECT_ID [Media.id media] in
    c ← lift (collect_localizations acc.2 tracks localizations);
    (* Storing the media metadata we'll need later and the localizations *)
    mret (acc.1 ++ [mkEntry (Str.replace ":" "_" (Media.name media))
                      (Media.id media) (Media.width media) (Media.height media)
                      (c_media_localizations c) (c_loc_id_to_class c)],
          c_ALL_CLASSES_LIST c).

(** [for x in l: acc = f acc x] for an effectful body. *)
Fixpoint mfold {A B} (f : A → B → M A) (acc : A) (l : list B) : M A :=
  match l with
  | [] => mret acc
  | x :: l' => acc' ← f acc x; mfold f acc' l'
  end.

Definition collect (api : Api) (PROJECT_ID : Z) (MEDIA_LIST : list string)
    (medias : list Media.t) : M (list MediaEntry * list string) :=
  mfold (collect_media api PROJECT_ID MEDIA_LIST) ([], []) medias.

(** ** Checking localizations *)

(** [media_w_localizations[0][4][0]]. *)
Definition first_localization (media_w_localizations : list MediaEntry)
    : result Localization.t :=
  e ← index media_w_localizations 0;
  index (localizations e) 0.

(** ** Downloading images and annotations *)

Record BBox := mkBBox { xmin : Z; ymin : Z; xmax : Z; ymax : Z }.

(** Converting the bounding boxes locations from normalized to relative,
    and in xyxy format. *)
Definition bbox_of (localization : Localization.t)
    (media_width media_height : Z) : result BBox :=
  xmin ← PyFloat.mul_int (Localization.x localization) media_width ≫= PyFloat.to_int;
  ymin ← PyFloat.mul_int (Localization.y localization) media_height ≫= PyFloat.to_int;
  w ← PyFloat.mul_int (Localization.width localization) media_width ≫= PyFloat.to_int;
  let xmax := w + xmin in
  h ← PyFloat.mul_int (Localization.height localization) media_height ≫= PyFloat.to_int;
  let ymax := h + ymin in
  Ok (mkBBox xmin ymin xmax ymax).

(** The dict [loc]: [localization.to_dict()] with the three added keys. *)
Record Loc := mkLoc {
  to_dict : Localization.t;
  bbox : BBox;
  path : string;
  class_category : string;
}.

(** The body of the loop that reshapes the localizations of a media. *)
Definition reshape (e : MediaEntry) (localization : Localization.t) : result Loc :=
  let frame_id := Localization.frame localization in
  let frame_path := IMAGE_DIR +:+ (Str.split "." (media_name e)).1 +:+ "_"
                      +:+ pretty frame_id +:+ ".jpg" in
  bbox ← bbox_of localization (media_width e) (media_height e);
  let class_category :=
    match getitem pretty (loc_id_to_class e) (Localization.id localization) with
    | Ok c => c
    | Raise _ => "Unknown"
    end in
  Ok (mkLoc localization bbox frame_path class_category).

(** The body of the loop that groups the entries by frame. *)
Definition group_body (frame_localizations : gmap Z (list Loc)) (entry : Loc)
    : gmap Z (list Loc) :=
  let frame := Localization.frame (to_dict entry) in
  match frame_localizations !! frame with
  | Some l => <[frame := l ++ [entry]]> frame_localizations
  | None => <[frame := [entry]]> frame_localizations
  end.

(** The document of a frame: a writer on the image path, and one object
    added for each localization of the frame. *)
Definition annotation (e : MediaEntry) (img_path : string) (locs : list Loc)
    : Writer.t :=
  foldl (λ writer loc,
           let bbox := bbox loc in
           Writer.addObject writer (class_category loc)
             (xmin bbox) (ymin bbox) (xmax bbox) (ymax bbox))
        (Writer.new img_path (media_width e) (media_height e)) locs.

(** The body of the loop that exports one file per frame. *)
Definition export_frame (e : MediaEntry)
    (frame_localizations : gmap Z (list Loc)) (frame : Z) : M unit :=
  (* Grabbing localizations for just this frame *)
  locs ← lift (getitem pretty frame_localizations frame);
  (* Location of file on local machine *)
  first ← lift (index locs 0);
  let img_path := path first in
  let xml_path := LABEL_DIR +:+ Str.replace ".jpg" ".xml" (Str.basename img_path) in
  writer_save (annotation e img_path locs) xml_path.

(** The frames that have localizations: [list(set([l.frame for l in
    localizations]))]. *)
Definition frames_w_localizations (localizations : list Localization.t) : list Z :=
  elements (list_to_set (Localization.frame <$> localizations) : gset Z).

(** Downloading each image frame with localizations: the block of the
    executor, every task of which is a call of [download_image]. *)
Definition download_frames (api : Api) (DOWNLOAD : bool) (e : MediaEntry)
    : M (list string) :=
  mmap (λ frame, download_image frame (media_name e) IMAGE_DIR api
                   (media_id e) DOWNLOAD)
       (frames_w_localizations (localizations e)).

(** The body of the loop through [media_w_localizations]. *)
Definition process_media (api : Api) (DOWNLOAD : bool) (e : MediaEntry) : M unit :=
  print ("Downloading frames and annotations for:  " +:+ media_name e);;
  img_paths ← download_frames api DOWNLOAD e;
  locs ← lift (rmap (reshape e) (localizations e));
  let frame_localizations := foldl group_body ∅ locs in
  mfor (frames_w_localizations (localizations e))
       (export_frame e frame_localizations).

Definition download_and_annotate (api : Api) (DOWNLOAD : bool)
    (media_w_localizations : list MediaEntry) : M unit :=
  mfor media_w_localizations (process_media api DOWNLOAD).

(** ** The notebook, cell after cell *)

Definition notebook (api : Api) (DOWNLOAD : bool) (PROJECT_ID : Z)
    (MEDIA_LIST : list string) : M unit :=
  medias ← get_medias api PROJECT_ID;
  check_medias MEDIA_LIST medias;;
  c ← collect api PROJECT_ID MEDIA_LIST medias;
  download_and_annotate api DOWNLOAD c.1.

(** * Specifications

    The closed forms, the relations between worlds and the sample data
    that the properties are stated with.  None of them is part of the
    notebook. *)

(** ** Results *)

Definition is_Ok {A} (r : result A) : Prop := ∃ a, r = Ok a.

(** ** Floats *)

(** A finite float of magnitude less than [2 ^ k]. *)
Definition below (k : Z) (f : spec_float) : Prop :=
  match f with
  | S754_zero _ => True
  | S754_finite _ m e => Zdigits2 (Zpos m) + e ≤ k
  | _ => False
  end.

(** A float that is not below zero: a zero, a NaN, or a float whose sign
    bit is not set. *)
Definition nonnegative (f : spec_float) : Prop :=
  match f with
  | S754_finite s _ _ | S754_infinity s => s = false
  | _ => True
  end.

(** A localization whose four coordinates are finite and of magnitude
    less than two, as every coordinate of [[0, 1]] is. *)
Definition normalized (l : Localization.t) : Prop :=
  below 1 (Localization.x l) ∧ below 1 (Localization.y l) ∧
  below 1 (Localization.width l) ∧ below 1 (Localization.height l).

(** An entry whose localizations are normalized and whose media has a
    width and a height of magnitude less than [2 ^ 64]. *)
Definition well_formed (e : MediaEntry) : Prop :=
  Forall normalized (localizations e) ∧
  Z.abs (media_width e) < 2 ^ 64 ∧ Z.abs (media_height e) < 2 ^ 64.

(** ** Paths *)

(** A string without a dot and without a slash. *)
Definition plain (s : string) : Prop :=
  Str.contains "." s = false ∧ Str.contains "/" s = false.

(** The media name up to its first dot, as both path computations take it. *)
Definition stem (media_name : string) : string := (Str.split "." media_name).1.

(** The path that [download_image] computes. *)
Definition dst_of (media_dir media_name : string) (frame : Z) : string :=
  media_dir +:+ stem media_name +:+ "_" +:+ pretty frame +:+ ".jpg".

(** The image path of a frame, in closed form. *)
Definition image_path (media_name : string) (frame : Z) : string :=
  IMAGE_DIR +:+ stem media_name +:+ "_" +:+ pretty frame +:+ ".jpg".

(** The annotation path of a frame, in closed form. *)
Definition xml_path (media_name : string) (frame : Z) : string :=
  LABEL_DIR +:+ Str.basename (stem media_name) +:+ "_" +:+ pretty frame +:+ ".xml".

(** ** Logs *)

(** The saves, the moves, the fetches and the printed lines of a log. *)
Definition saves (l : list Event) : list (string * Writer.t) :=
  omap (λ e, match e with Save p d => Some (p, d) | _ => None end) l.

Definition moves (l : list Event) : list (string * string) :=
  omap (λ e, match e with Move s d => Some (s, d) | _ => None end) l.

Definition fetches (l : list Event) : list (Z * list Z) :=
  omap (λ e, match e with GetFrame i fs => Some (i, fs) | _ => None end) l.

Definition prints (l : list Event) : list string :=
  omap (λ e, match e with Print s => Some s | _ => None end) l.

Definition is_download (e : Event) : bool :=
  match e with GetFrame _ _ | Move _ _ => true | _ => false end.

Definition is_print (e : Event) : bool :=
  match e with Print _ => true | _ => false end.

(** The log of [w'] is the log of [w] followed by events that satisfy [P]. *)
Definition extends_with (P : Event → Prop) (w w' : World) : Prop :=
  ∃ evs, log w' = log w ++ evs ∧ Forall P evs.

(** ** One run, and two runs *)

(** [m] takes every world to an [R]-related one, however it ends. *)
Definition preserves (R : World → World → Prop) {A} (m : M A) : Prop :=
  ∀ w, R w (run m w).2.

(** From [sim]-related worlds, [m1] and [m2] end the same way, with the
    same value, in [sim]-related worlds. *)
Definition related (sim : World → World → Prop) {A} (m1 m2 : M A) : Prop :=
  ∀ w1 w2, sim w1 w2 →
    (run m1 w1).1 = (run m2 w2).1 ∧ sim (run m1 w1).2 (run m2 w2).2.

(** The worlds agree on the events that [vis] shows and, when [with_files]
    is set, on the files. *)
Definition sim (vis : Event → bool) (with_files : bool) (w1 w2 : World) : Prop :=
  filter vis (log w1) = filter vis (log w2) ∧
  (with_files = true → files w1 = files w2).

(** The flags of two runs can differ when the downloads are not observed. *)
Definition flags_ok (vis : Event → bool) (with_files : bool) (D1 D2 : bool) : Prop :=
  (with_files = true ∧ D1 = D2) ∨
  (with_files = false ∧ ∀ ev, is_download ev = true → vis ev = false).

(** From [w] to [w']: the files whose name does not end with [.xml] are
    what they were, and the log has no new fetch and no new move. *)
Definition images_untouched (w w' : World) : Prop :=
  (∀ p, Str.endswith ".xml" p = false → files w' !! p = files w !! p) ∧
  extends_with (λ ev, is_download ev = false) w w'.

(** ** The worlds that the cells reach *)

(** The world after the fetch of a frame and the move of the temporary
    file to [dst]. *)
Definition fetched (api : Api) (media_id frame : Z) (dst : string) (w : World)
    : World :=
  let src := get_frame api media_id [frame] in
  mkWorld
    (<[dst := Jpeg media_id [frame]]>
       (delete src (<[src := Jpeg media_id [frame]]> (files w))))
    (log w ++ [GetFrame media_id [frame]; Move src dst]).

(** The world after [writer.save]. *)
Definition saved (annotation_path : string) (writer : Writer.t) (w : World) : World :=
  mkWorld (<[annotation_path := Xml writer]> (files w))
          (log w ++ [Save annotation_path writer]).

(** The line of the media check for a requested media. *)
Definition check_message (medias_names : list string) (media : string) : Event :=
  Print (if bool_decide (media ∈ medias_names)
         then "This media WAS found: " +:+ media
         else "This media WASN'T found: " +:+ media).

(** The world after the list of the medias and the media check. *)
Definition checked (api : Api) (PROJECT_ID : Z) (MEDIA_LIST : list string)
    (w : World) : World :=
  let medias := get_media_list api PROJECT_ID in
  mkWorld (files w)
    ((log w ++ [Print ("Number of medias: " +:+ pretty (Z.of_nat (length medias)))])
       ++ (check_message (Media.name <$> medias) <$> MEDIA_LIST)).

(** The world after the message and the download block of a media. *)
Definition downloaded (api : Api) (DOWNLOAD : bool) (e : MediaEntry) (w : World)
    : World :=
  (run (download_frames api DOWNLOAD e)
     (emit (Print ("Downloading frames and annotations for:  " +:+ media_name e)) w)).2.

(** ** Frames and documents *)

(** The entries of a frame, in the order of the list. *)
Definition on_frame (frame : Z) (locs : list Loc) : list Loc :=
  filter (λ loc, Localization.frame (to_dict loc) = frame) locs.

(** What the dict of the grouping loop holds for a frame. *)
Definition group_spec (locs : list Loc) (frame : Z) : option (list Loc) :=
  match on_frame frame locs with
  | [] => None
  | l => Some l
  end.

(** The object that the export loop adds for an entry. *)
Definition object_of_loc (loc : Loc) : Writer.object :=
  Writer.mk_object (class_category loc) (xmin (bbox loc)) (ymin (bbox loc))
    (xmax (bbox loc)) (ymax (bbox loc)).

(** The document of a frame, from the reshaped localizations of a media. *)
Definition frame_doc (e : MediaEntry) (locs : list Loc) (frame : Z) : Writer.t :=
  annotation e (image_path (media_name e) frame) (on_frame frame locs).

(** The world after the export loop over [frames]. *)
Definition exported (e : MediaEntry) (locs : list Loc) (frames : list Z)
    (w : World) : World :=
  foldl (λ w frame, saved (xml_path (media_name e) frame) (frame_doc e locs frame) w)
        w frames.

(** The annotations of a media: one per frame with localizations. *)
Definition media_saves (e : MediaEntry) (locs : list Loc) : list (string * Writer.t) :=
  (λ frame, (xml_path (media_name e) frame, frame_doc e locs frame))
    <$> frames_w_localizations (localizations e).

(** An event of the download block of a media: the fetch of a frame with
    localizations, or the move of its image to its image path. *)
Definition download_event (api : Api) (e : MediaEntry) (ev : Event) : Prop :=
  ∃ frame, frame ∈ frames_w_localizations (localizations e) ∧
    (ev = GetFrame (media_id e) [frame] ∨
     ev = Move (get_frame api (media_id e) [frame])
               (image_path (media_name e) frame)).

(** A save of a media: the document of a frame with localizations, at the
    annotation path of the frame. *)
Definition save_event (e : MediaEntry) (ev : Event) : Prop :=
  ∃ frame locs, frame ∈ frames_w_localizations (localizations e) ∧
    ev = Save (xml_path (media_name e) frame) (frame_doc e locs frame).

(** [x] is at two places of [l]. *)
Definition twice {A} (x : A) (l : list A) : Prop :=
  ∃ l1 l2 l3, l = l1 ++ x :: l2 ++ x :: l3.

(** ** The collector *)

(** The test of the loop through the tracks, with the key as it is
    spelled there, and the test of the loop through the localizations. *)
Definition track_key (l : Localization.t) : Prop :=
  is_Some (Localization.attributes l !! "ScientifcName").

Definition has_class (l : Localization.t) : Prop :=
  is_Some (Localization.attributes l !! "ScientificName").

Global Instance track_key_dec l : Decision (track_key l) := is_Some_dec _.
Global Instance has_class_dec l : Decision (has_class l) := is_Some_dec _.

(** The class of a localization that has one. *)
Definition class_of (l : Localization.t) : string :=
  default "" (Localization.attributes l !! "ScientificName").

(** The localizations of all the tracks, in the order of the two loops. *)
Definition track_localizations (tracks : list Track.t) : list Localization.t :=
  concat (Track.localizations <$> tracks).

(** The three updates, for each localization of a list that has a class. *)
Definition kept (acc : Collected) (ls : list Localization.t) : Collected :=
  foldl (λ acc l,
           mkCollected (<[Localization.id l := class_of l]> (c_loc_id_to_class acc))
                       (c_media_localizations acc ++ [l])
                       (c_ALL_CLASSES_LIST acc ++ [class_of l]))
        acc ls.

(** What the two loops keep. *)
Definition kept_localizations (tracks : list Track.t)
    (localizations : list Localization.t) : list Localization.t :=
  filter track_key (track_localizations tracks) ++ filter has_class localizations.

(** The entry that the collector stores for a media. *)
Definition entry_of (media : Media.t) (c : Collected) : MediaEntry :=
  mkEntry (Str.replace ":" "_" (Media.name media)) (Media.id media)
    (Media.width media) (Media.height media)
    (c_media_localizations c) (c_loc_id_to_class c).

(** The dict of a media, from the localizations that the two loops keep:
    a later localization overwrites the class of an earlier one with the
    same id. *)
Definition class_lookup (ls : list Localization.t) : gmap Z string :=
  foldl (λ d l, <[Localization.id l := class_of l]> d) ∅ ls.

(** The medias of the project that the collector does not skip. *)
Definition selected (MEDIA_LIST : list string) (medias : list Media.t)
    : list Media.t :=
  filter (λ media, Media.name media ∈ MEDIA_LIST) medias.

(** Every localization of the tracks of a media that passes the test of the
    loop through the tracks has a class. *)
Definition tracks_ok (api : Api) (PROJECT_ID : Z) (media : Media.t) : Prop :=
  Forall (λ l, track_key l → has_class l)
    (track_localizations (get_state_list api PROJECT_ID [Media.id media])).

(** The entry of a media, in closed form. *)
Definition collected_entry (api : Api) (PROJECT_ID : Z) (media : Media.t)
    : MediaEntry :=
  let ls := kept_localizations (get_state_list api PROJECT_ID [Media.id media])
              (get_localization_list api PROJECT_ID [Media.id media]) in
  mkEntry (Str.replace ":" "_" (Media.name media)) (Media.id media)
    (Media.width media) (Media.height media) ls (class_lookup ls).

(** A class that a localization of a requested media has, in a track or
    in the list of the standalone localizations. *)
Definition class_of_project (api : Api) (PROJECT_ID : Z) (MEDIA_LIST : list string)
    (class : string) : Prop :=
  ∃ media l,
    media ∈ get_media_list api PROJECT_ID ∧ Media.name media ∈ MEDIA_LIST ∧
    (l ∈ track_localizations (get_state_list api PROJECT_ID [Media.id media]) ∨
     l ∈ get_localization_list api PROJECT_ID [Media.id media]) ∧
    Localization.attributes l !! "ScientificName" = Some class.

(** The file at [p] is the same in both worlds. *)
Definition unchanged_at (p : string) (w w' : World) : Prop :=
  files w' !! p = files w !! p.

(** The image of a frame of a media is not there. *)
Definition missing (media_name : string) (w : World) (frame : Z) : Prop :=
  files w !! image_path media_name frame = None.

Global Instance missing_dec media_name w frame : Decision (missing media_name w frame) :=
  decide (files w !! image_path media_name frame = None).

(** The events of the download of frames, in order: a fetch and a move for
    each of them. *)
Definition download_events (api : Api) (media_name : string) (media_id : Z)
    (frames : list Z) : list Event :=
  frames ≫= λ frame,
    [GetFrame media_id [frame];
     Move (get_frame api media_id [frame]) (image_path media_name frame)].

(** The images that are there stay there. *)
Definition images_stay (w w' : World) : Prop :=
  ∀ media_name frame,
    is_Some (files w !! image_path media_name frame) →
    is_Some (files w' !! image_path media_name frame).

(** The annotations that the loop body of a media saves when it ends
    normally. *)
Definition entry_saves (e : MediaEntry) : list (string * Writer.t) :=
  match rmap (reshape e) (localizations e) with
  | Ok locs => media_saves e locs
  | Raise _ => []
  end.

(** The document of the last save at a path. *)
Definition last_save (p : string) (S : list (string * Writer.t)) : option Writer.t :=
  snd <$> last (filter (λ s, s.1 = p) S).

(** What is at a path after the saves [S], when nothing else is written
    there. *)
Definition written (p : string) (S : list (string * Writer.t))
    (fs : gmap string File) : option File :=
  match last_save p S with
  | Some doc => Some (Xml doc)
  | None => fs !! p
  end.

(** The line that the collector prints for a media. *)
Definition collecting_message (media : Media.t) : Event :=
  Print ("Collecting metadata for:  " +:+ Media.name media).

(** ** Sample data *)

Module Sample.

(** The floats 0.9, 0.5, 0.25, 0.1 and 0.0. *)
Definition f0_9 : spec_float := S754_finite false 8106479329266893 (-53).
Definition f0_5 : spec_float := S754_finite false 4503599627370496 (-53).
Definition f0_25 : spec_float := S754_finite false 4503599627370496 (-54).
Definition f0_1 : spec_float := S754_finite false 7205759403792794 (-56).
Definition f0 : spec_float := S754_zero false.

(** A fish in frame 3, with the class key only. *)
Definition fish : Localization.t :=
  Localization.mk 1 3 f0_5 f0_25 f0_5 f0_5 {[ "ScientificName" := "Fish" ]}.

(** A crab in frame 3, with the class key and the key that the loop
    through the tracks tests. *)
Definition crab : Localization.t :=
  Localization.mk 2 3 f0_25 f0_25 f0_5 f0_5
    {[ "ScientificName" := "Crab"; "ScientifcName" := "Crab" ]}.

(** A localization with the key of the loop through the tracks only. *)
Definition eel : Localization.t :=
  Localization.mk 4 5 f0_25 f0_25 f0_5 f0_5 {[ "ScientifcName" := "Eel" ]}.

(** A box that leaves the image, and an empty box. *)
Definition wide : Localization.t := Localization.mk 5 0 f0_9 f0_9 f0_5 f0_5 ∅.
Definition flat : Localization.t := Localization.mk 6 0 f0_1 f0_1 f0 f0 ∅.

Definition video : Media.t := Media.mk "dive:1.mov" 7 100 50.

(** A project of one media, whose crab is in a track and in the list of
    the standalone localizations. *)
Definition api : Api := {|
  get_media_list := λ _, [video];
  get_localization_list := λ _ _, [fish; crab];
  get_state_list := λ _ _, [Track.mk [crab]];
  get_frame := λ _ _, "/tmp/frame.jpg";
|}.

Definition empty : World := mkWorld ∅ [].

(** What the collector keeps for the media of [api]. *)
Definition collected : Collected :=
  mkCollected {[ 1 := "Fish"; 2 := "Crab" ]} [crab; fish; crab]
    ["Crab"; "Fish"; "Crab"].

(** An entry whose lookup has no class for the fish. *)
Definition entry : MediaEntry :=
  mkEntry "dive_1.mov" 7 100 50 [fish; crab] {[ 2 := "Crab" ]}.


Definition visited : World :=
  mkWorld {[ "./Data/JPEGImages/a/b_1.jpg" := Jpeg 8 [1] ]} [].

(** A standalone localization with the id of the crab and another class. *)
Definition lobster : Localization.t :=
  Localization.mk 2 3 f0_25 f0_25 f0_5 f0_5 {[ "ScientificName" := "Lobster" ]}.

(** What the collector keeps for a track with the crab and the lobster as
    a standalone localization. *)
Definition relabelled : Collected :=
  mkCollected {[ 2 := "Lobster" ]} [crab; lobster] ["Crab"; "Lobster"].


(** What the collector gives for the project of [api]. *)
Definition entries : list MediaEntry :=
  [mkEntry "dive_1.mov" 7 100 50 [crab; fish; crab] {[ 1 := "Fish"; 2 := "Crab" ]}].

Definition collecting : World :=
  mkWorld ∅ [Print "Collecting metadata for:  dive:1.mov"].

End Sample.

(** * Properties *)

(** ** Results and the monad *)

Lemma rmap_Ok_Forall2 {A B} (f : A → result B) l ys :
  rmap f l = Ok ys ↔ Forall2 (λ x y, f x = Ok y) l ys.
Proof.
  revert ys. induction l as [|x l IH]; intros ys; simpl.
  - split; [intros [= <-]; constructor | by inversion 1].
  - split.
    + destruct (f x) as [y|] eqn:Hx; [|done]. cbn.
      destruct (rmap f l) as [ys'|] eqn:Hl; [|done]. cbn.
      intros [= <-]. constructor; [done|]. by apply IH.
    + inversion 1 as [|? y ? ys' Hx Hl]; subst. rewrite Hx. cbn.
      apply IH in Hl. rewrite Hl. done.
Qed.

Lemma rmap_is_Ok {A B} (f : A → result B) l :
  is_Ok (rmap f l) ↔ Forall (λ x, is_Ok (f x)) l.
Proof.
  induction l as [|x l IH]; simpl.
  - split; [constructor | by exists []].
  - rewrite Forall_cons, <-IH. split.
    + intros [ys H]. destruct (f x) as [y|] eqn:Hx; [|done]. cbn in H.
      destruct (rmap f l) as [ys'|]; [|done]. split; by eexists.
    + intros [[y ->] [ys ->]]. by eexists.
Qed.

(** ** Strings *)

Module StrFacts.
Import Str.

Lemma app_nil_l s : "" +:+ s = s.
Proof. reflexivity. Qed.

Lemma app_cons a s t : String a s +:+ t = String a (s +:+ t).
Proof. reflexivity. Qed.

Lemma app_nil_r s : s +:+ "" = s.
Proof. induction s; rewrite ?app_cons; by f_equal. Qed.

Lemma app_assoc s t u : (s +:+ t) +:+ u = s +:+ t +:+ u.
Proof. induction s; rewrite ?app_cons; by f_equal. Qed.

Lemma length_app s t :
  String.length (s +:+ t) = (String.length s + String.length t)%nat.
Proof. induction s; rewrite ?app_cons; simpl; by f_equal. Qed.

(** Two decompositions with suffixes of one length are the same. *)
Lemma app_inj_suffix s1 s2 t1 t2 :
  String.length t1 = String.length t2 →
  s1 +:+ t1 = s2 +:+ t2 → s1 = s2 ∧ t1 = t2.
Proof.
  revert s2. induction s1 as [|a s1 IH]; intros [|b s2] Hlen Heq;
    rewrite ?app_cons, ?app_nil_l in Heq.
  - done.
  - apply (f_equal String.length) in Heq. simpl in Heq.
    rewrite length_app in Heq. lia.
  - apply (f_equal String.length) in Heq. simpl in Heq.
    rewrite length_app in Heq. lia.
  - injection Heq as -> Heq. destruct (IH _ Hlen Heq) as [-> ->]. done.
Qed.

Lemma contains_app c s t : contains c (s +:+ t) = contains c s || contains c t.
Proof.
  induction s as [|a s IH]; rewrite ?app_cons; simpl; [done|]. by case_decide.
Qed.

Lemma split_fst_no_sep sep s : contains sep (split sep s).1 = false.
Proof.
  induction s as [|a s IH]; simpl; [done|].
  destruct (split sep s) as [hd tl]. case_decide; simpl; [done|].
  by case_decide.
Qed.

Lemma split_no_sep sep s : contains sep s = false → split sep s = (s, []).
Proof.
  induction s as [|a s IH]; simpl; [done|].
  case_decide; [done|]. intros Hc. by rewrite (IH Hc).
Qed.

Lemma split_sep_tail sep s : contains sep s = true → (split sep s).2 ≠ [].
Proof.
  induction s as [|a s IH]; simpl; [done|].
  destruct (split sep s) as [hd tl] eqn:Hs. case_decide; simpl; [done|]. exact IH.
Qed.

Lemma last_default {A} (l : list A) d d' :
  l ≠ [] → List.last l d = List.last l d'.
Proof.
  induction l as [|x [|y l] IH]; [done|done|]. intros _.
  change (List.last (y :: l) d = List.last (y :: l) d'). by apply IH.
Qed.

(** [basename] by cases on the first character. *)
Lemma basename_cons a p :
  basename (String a p) =
    if decide (a = "/"%char) then basename p
    else if contains "/" p then basename p else String a p.
Proof.
  unfold basename. simpl. destruct (contains "/" p) eqn:Hc.
  - pose proof (split_sep_tail _ _ Hc) as Hne.
    destruct (split "/" p) as [hd tl]. simpl in Hne.
    case_decide.
    + destruct tl as [|x tl]; [done|].
      change (List.last (x :: tl) "" = List.last (x :: tl) hd).
      by apply last_default.
    + by apply last_default.
  - rewrite (split_no_sep _ _ Hc). by case_decide.
Qed.

Lemma basename_no_slash p : contains "/" p = false → basename p = p.
Proof. intros H. unfold basename. by rewrite (split_no_sep _ _ H). Qed.

(** What follows a slash-free suffix stays in the last component. *)
Lemma basename_app p t :
  contains "/" t = false → basename (p +:+ t) = basename p +:+ t.
Proof.
  intros Ht. induction p as [|a p IH].
  - simpl. by apply basename_no_slash.
  - change (String a p +:+ t) with (String a (p +:+ t)).
    rewrite !basename_cons, contains_app, Ht, orb_false_r.
    case_decide; [done|]. by destruct (contains "/" p).
Qed.

(** A directory prefix, which ends with a slash, is dropped. *)
Lemma basename_dir d p : basename ((d +:+ "/") +:+ p) = basename p.
Proof.
  induction d as [|a d IH].
  - change (("" +:+ "/") +:+ p) with (String "/" p).
    rewrite basename_cons. by case_decide.
  - change ((String a d +:+ "/") +:+ p) with (String a ((d +:+ "/") +:+ p)).
    rewrite basename_cons. case_decide; [exact IH|].
    assert (contains "/" ((d +:+ "/") +:+ p) = true) as ->; [|exact IH].
    rewrite app_assoc, contains_app, app_cons. simpl. apply orb_true_r.
Qed.

Lemma basename_no_slash_result p : contains "/" (basename p) = false.
Proof.
  induction p as [|a p IH]; [done|]. rewrite basename_cons.
  case_decide; [done|]. destruct (contains "/" p) eqn:Hc; [done|].
  simpl. by case_decide.
Qed.

(** The extension of a dot-free name is the one occurrence of [".jpg"]. *)
Lemma replace_jpg_xml s :
  contains "." s = false → replace ".jpg" ".xml" (s +:+ ".jpg") = s +:+ ".xml".
Proof.
  unfold replace. induction s as [|a s IH]; [done|].
  simpl. case_decide as Ha; [done|]. intros Hs.
  change (String a s +:+ ".jpg") with (String a (s +:+ ".jpg")).
  cbn [replace_go startswith]. case_decide; [by subst|].
  cbn. by rewrite (IH Hs).
Qed.

Lemma endswith_app p s : endswith p (s +:+ p) = true.
Proof.
  induction s as [|a s IH]; simpl.
  - destruct p; simpl; by rewrite ?bool_decide_eq_true_2.
  - by rewrite IH, orb_true_r.
Qed.

Lemma endswith_suffix p s : endswith p s = true → ∃ u, s = u +:+ p.
Proof.
  induction s as [|a s IH]; simpl.
  - intros ->%bool_decide_eq_true. by exists "".
  - intros [->%bool_decide_eq_true|[u ->]%IH]%orb_true_iff.
    + by exists "".
    + by exists (String a u).
Qed.

Lemma pretty_N_go_plain x s : plain s → plain (pretty_N_go x s).
Proof.
  revert s. induction (N.lt_wf_0 x) as [x _ IH]; intros s Hs.
  destruct (decide (x = 0%N)) as [->|Hx]; [by rewrite pretty_N_go_0|].
  rewrite pretty_N_go_step by lia. apply IH.
  { apply N.div_lt; lia. }
  destruct Hs as [H1 H2]. unfold plain, pretty_N_char. simpl.
  split; repeat case_match; by case_decide.
Qed.

Lemma pretty_Z_plain (n : Z) : plain (pretty n).
Proof.
  assert (∀ p : positive, plain (pretty p)) as Hpos.
  { intros p. unfold pretty, pretty_positive, pretty, pretty_N.
    case_decide; [done|]. by apply pretty_N_go_plain. }
  destruct n as [|p|p]; unfold pretty, pretty_Z; [done|apply Hpos|].
  destruct (Hpos p) as [H1 H2].
  split; rewrite app_cons, app_nil_l; simpl; first [done | by case_decide].
Qed.

End StrFacts.

(** ** The paths of a frame *)

Module PathFacts.
Import Str StrFacts.

Lemma contains_basename c p : contains c p = false → contains c (basename p) = false.
Proof.
  induction p as [|a p IH]; [done|]. rewrite basename_cons. simpl.
  case_decide as Hac; [done|]. intros Hp.
  case_decide; [by apply IH|].
  destruct (contains "/" p); [by apply IH|]. simpl. by case_decide.
Qed.

Lemma frame_suffix_plain (frame : Z) ext :
  contains "/" ext = false →
  contains "/" ("_" +:+ pretty frame +:+ ext) = false.
Proof.
  intros He. destruct (pretty_Z_plain frame) as [_ Hf].
  rewrite app_cons, app_nil_l. simpl. by rewrite contains_app, Hf, He.
Qed.

Lemma basename_image_path media_name frame :
  basename (image_path media_name frame)
  = (basename (stem media_name) +:+ "_" +:+ pretty frame) +:+ ".jpg".
Proof.
  unfold image_path.
  change IMAGE_DIR with ("./Data/JPEGImages" +:+ "/").
  rewrite basename_dir, basename_app by (by apply frame_suffix_plain).
  by rewrite !app_assoc.
Qed.

(** The annotation path that the export loop computes from the image
    path is [xml_path]. *)
Lemma xml_path_of_image_path media_name frame :
  LABEL_DIR +:+ replace ".jpg" ".xml" (basename (image_path media_name frame))
  = xml_path media_name frame.
Proof.
  rewrite basename_image_path, replace_jpg_xml.
  - unfold xml_path. by rewrite !app_assoc.
  - destruct (pretty_Z_plain frame) as [Hf _].
    rewrite !contains_app, Hf, contains_basename by apply split_fst_no_sep.
    done.
Qed.

Lemma frame_suffix_inj s (f1 f2 : Z) ext :
  s +:+ "_" +:+ pretty f1 +:+ ext = s +:+ "_" +:+ pretty f2 +:+ ext → f1 = f2.
Proof.
  intros H. do 2 apply (inj (String.app _)) in H.
  apply app_inj_suffix in H as [H _]; [|done]. by apply (inj pretty).
Qed.

Global Instance image_path_inj media_name : Inj (=) (=) (image_path media_name).
Proof.
  intros f1 f2 H. unfold image_path in H.
  apply (inj (String.app _)) in H. by apply frame_suffix_inj in H.
Qed.

Global Instance xml_path_inj media_name : Inj (=) (=) (xml_path media_name).
Proof.
  intros f1 f2 H. unfold xml_path in H.
  apply (inj (String.app _)) in H. by apply frame_suffix_inj in H.
Qed.

Lemma xml_path_endswith media_name frame :
  endswith ".xml" (xml_path media_name frame) = true.
Proof. unfold xml_path. rewrite <-!app_assoc. apply endswith_app. Qed.

Lemma image_path_not_xml media_name frame :
  endswith ".xml" (image_path media_name frame) = false.
Proof.
  apply not_true_iff_false. intros [u Hu]%endswith_suffix.
  unfold image_path in Hu. rewrite <-!app_assoc in Hu.
  apply app_inj_suffix in Hu as [_ Hu]; done.
Qed.

End PathFacts.

(** ** Running the monad *)

Lemma run_ret {A} (a : A) w : run (mret a) w = (Ok a, w).
Proof. reflexivity. Qed.

Lemma run_bind {A B} (m : M A) (k : A → M B) w :
  run (m ≫= k) w =
    match run m w with
    | (Ok a, w') => run (k a) w'
    | (Raise e, w') => (Raise e, w')
    end.
Proof. reflexivity. Qed.

Lemma run_lift {A} (r : result A) w : run (lift r) w = (r, w).
Proof. reflexivity. Qed.

Lemma mfor_cons {A} (x : A) l (body : A → M unit) :
  mfor (x :: l) body = (body x;; mfor l body).
Proof. reflexivity. Qed.

Lemma mmap_cons {A B} (f : A → M B) x l :
  mmap f (x :: l) = (y ← f x; ys ← mmap f l; mret (y :: ys)).
Proof. reflexivity. Qed.

Lemma mfold_cons {A B} (f : A → B → M A) acc x l :
  mfold f acc (x :: l) = (acc' ← f acc x; mfold f acc' l).
Proof. reflexivity. Qed.

(** *** One run: relations between the world before and the world after *)

Section Preserves.
Context (R : World → World → Prop) `{!PreOrder R}.

#[local] Abbreviation preserves := (preserves R).

Lemma preserves_ret {A} (a : A) : preserves (mret a).
Proof. intros w. simpl. reflexivity. Qed.

Lemma preserves_lift {A} (r : result A) : preserves (lift r).
Proof. intros w. simpl. reflexivity. Qed.

Lemma preserves_bind {A B} (m : M A) (k : A → M B) :
  preserves m → (∀ a, preserves (k a)) → preserves (m ≫= k).
Proof.
  intros Hm Hk w. rewrite run_bind. specialize (Hm w).
  destruct (run m w) as [[a|e] w']; simpl in *; [|done].
  etrans; [done|]. apply Hk.
Qed.

Lemma preserves_mfor {A} (l : list A) (body : A → M unit) :
  (∀ x, x ∈ l → preserves (body x)) → preserves (mfor l body).
Proof.
  induction l as [|x l IH]; intros H; simpl; [apply preserves_ret|].
  apply preserves_bind; [apply H; left|].
  intros _. apply IH. intros y Hy. apply H. by right.
Qed.

Lemma preserves_mmap {A B} (f : A → M B) (l : list A) :
  (∀ x, x ∈ l → preserves (f x)) → preserves (mmap f l).
Proof.
  induction l as [|x l IH]; intros H; simpl; [apply preserves_ret|].
  apply preserves_bind; [apply H; left|]. intros y.
  apply preserves_bind; [apply IH; intros z Hz; apply H; by right|].
  intros ys. apply preserves_ret.
Qed.

Lemma preserves_mfold {A B} (f : A → B → M A) (l : list B) acc :
  (∀ a x, x ∈ l → preserves (f a x)) → preserves (mfold f acc l).
Proof.
  revert acc. induction l as [|x l IH]; intros acc H; simpl; [apply preserves_ret|].
  apply preserves_bind; [apply H; left|]. intros acc'.
  apply IH. intros a y Hy. apply H. by right.
Qed.
End Preserves.

(** *** Two runs: worlds that agree on what is observed *)

Section Related.
Context (sim : World → World → Prop).

#[local] Abbreviation related := (related sim).

Lemma related_ret {A} (a : A) : related (mret a) (mret a).
Proof. by intros w1 w2 H. Qed.

Lemma related_lift {A} (r : result A) : related (lift r) (lift r).
Proof. by intros w1 w2 H. Qed.

Lemma related_bind {A B} (m1 m2 : M A) (k1 k2 : A → M B) :
  related m1 m2 → (∀ a, related (k1 a) (k2 a)) →
  related (m1 ≫= k1) (m2 ≫= k2).
Proof.
  intros Hm Hk w1 w2 Hw. rewrite !run_bind.
  destruct (Hm w1 w2 Hw) as [Hr Hs].
  destruct (run m1 w1) as [[a1|e1] w1'], (run m2 w2) as [[a2|e2] w2'];
    simplify_eq/=; [|done].
  by apply Hk.
Qed.

Lemma related_mfor {A} (l : list A) (body1 body2 : A → M unit) :
  (∀ x, x ∈ l → related (body1 x) (body2 x)) →
  related (mfor l body1) (mfor l body2).
Proof.
  induction l as [|x l IH]; intros H; simpl; [apply related_ret|].
  apply related_bind; [apply H; left|].
  intros _. apply IH. intros y Hy. apply H. by right.
Qed.

Lemma related_mmap {A B} (f1 f2 : A → M B) (l : list A) :
  (∀ x, x ∈ l → related (f1 x) (f2 x)) →
  related (mmap f1 l) (mmap f2 l).
Proof.
  induction l as [|x l IH]; intros H; simpl; [apply related_ret|].
  apply related_bind; [apply H; left|]. intros y.
  apply related_bind; [apply IH; intros z Hz; apply H; by right|].
  intros ys. apply related_ret.
Qed.

Lemma related_mfold {A B} (f1 f2 : A → B → M A) (l : list B) acc :
  (∀ a x, x ∈ l → related (f1 a x) (f2 a x)) →
  related (mfold f1 acc l) (mfold f2 acc l).
Proof.
  revert acc. induction l as [|x l IH]; intros acc H; simpl; [apply related_ret|].
  apply related_bind; [apply H; left|]. intros acc'.
  apply IH. intros a y Hy. apply H. by right.
Qed.
End Related.

(** ** [download_image] *)

Lemma download_image_run frame media_name media_dir api media_id download w :
  run (download_image frame media_name media_dir api media_id download) w
  = (Ok (dst_of media_dir media_name frame),
     if download && bool_decide (files w !! dst_of media_dir media_name frame = None)
     then fetched api media_id frame (dst_of media_dir media_name frame) w
     else w).
Proof.
  unfold download_image. fold (stem media_name).
  fold (dst_of media_dir media_name frame).
  set (dst := dst_of media_dir media_name frame).
  rewrite run_bind. cbn [run os_path_exists].
  destruct (files w !! dst) as [f|] eqn:Hdst.
  - rewrite bool_decide_eq_true_2 by eauto.
    rewrite bool_decide_eq_false_2 by done. by rewrite andb_false_r.
  - rewrite bool_decide_eq_false_2 by (by intros [? ?]).
    rewrite bool_decide_eq_true_2 by done. rewrite andb_true_r.
    destruct download; [|done]. cbn.
    rewrite lookup_insert_eq. cbn. unfold fetched, emit. cbn.
    by rewrite <-(assoc_L (++)).
Qed.

Lemma fetched_dst api media_id frame dst w :
  files (fetched api media_id frame dst w) !! dst = Some (Jpeg media_id [frame]).
Proof. unfold fetched. cbn. apply lookup_insert_eq. Qed.

(** ** The bounding-box conversion *)

Module FloatFacts.
Import PyFloat.

(** The rounding to the nearest integer is the quotient or the next
    integer. *)
Lemma round_half_even_near m k :
  0 < m → 0 < k → 0 ≤ round_half_even m k - m / 2 ^ k ≤ 1.
Proof.
  intros Hm Hk. unfold round_half_even.
  repeat case_match; lia.
Qed.

Lemma cond_Zopp_sub_abs s a b : Z.abs (cond_Zopp s a - cond_Zopp s b) = Z.abs (a - b).
Proof. destruct s; simpl; lia. Qed.

(** [int(f)] and [round(f)] are defined on the same floats, and differ
    by one at most. *)
Lemma to_int_round f n :
  to_int f = Ok n → ∃ r, round f = Ok r ∧ Z.abs (n - r) ≤ 1.
Proof.
  destruct f as [s|s| |s m e]; simpl; try done.
  - intros [= <-]. by exists 0.
  - intros [= <-]. eexists; split; [done|].
    rewrite cond_Zopp_sub_abs.
    destruct (Z.leb_spec 0 e) as [He|He].
    + rewrite Z.shiftl_mul_pow2 by done. lia.
    + replace e with (- - e) at 1 by lia.
      rewrite Z.shiftl_opp_r, Z.shiftr_div_pow2 by lia.
      pose proof (round_half_even_near (Z.pos m) (- e)). lia.
Qed.

(** *** When the product and its integer part are defined *)

(** A positive number is between two powers of two, by its number of
    binary digits. *)
Lemma digits2_pos_bounds p :
  2 ^ (Zpos (digits2_pos p) - 1) ≤ Zpos p < 2 ^ Zpos (digits2_pos p).
Proof.
  induction p as [p IH|p IH|]; simpl digits2_pos.
  - rewrite Pos2Z.inj_succ.
    replace (Z.succ (Z.pos (digits2_pos p)) - 1) with (Z.succ (Z.pos (digits2_pos p) - 1)) by lia.
    rewrite !Z.pow_succ_r by lia. lia.
  - rewrite Pos2Z.inj_succ.
    replace (Z.succ (Z.pos (digits2_pos p)) - 1) with (Z.succ (Z.pos (digits2_pos p) - 1)) by lia.
    rewrite !Z.pow_succ_r by lia. lia.
  - done.
Qed.

Lemma Zdigits2_nonneg m : 0 ≤ Zdigits2 m.
Proof. by destruct m. Qed.

(** A bound on a number bounds its number of digits. *)
Lemma Zdigits2_le m k : 0 ≤ k → 0 ≤ m < 2 ^ k → Zdigits2 m ≤ k.
Proof.
  intros Hk [Hm Hlt]. destruct m as [|p|p]; [done| |lia]. simpl.
  destruct (digits2_pos_bounds p) as [Hlo _].
  apply Z.nlt_ge. intros Hgt.
  assert (2 ^ k ≤ 2 ^ (Z.pos (digits2_pos p) - 1)) by (apply Z.pow_le_mono_r; lia).
  lia.
Qed.

Lemma Zdigits2_lt_pow m : 0 ≤ m → m < 2 ^ Zdigits2 m.
Proof.
  destruct m as [|p|p]; [done| |lia]. intros _. apply digits2_pos_bounds.
Qed.

(** A shift to the right by [n] places takes [n] digits away. *)
Lemma Zdigits2_div m n :
  0 ≤ m → 0 ≤ n → Zdigits2 (m / 2 ^ n) ≤ Z.max (Zdigits2 m - n) 0.
Proof.
  intros Hm Hn. pose proof (Zdigits2_lt_pow m Hm) as Hlt.
  pose proof (Zdigits2_nonneg m).
  assert (0 < 2 ^ n) by (apply Z.pow_pos_nonneg; lia).
  apply Zdigits2_le; [lia|]. split; [apply Z.div_pos; lia|].
  apply Z.div_lt_upper_bound; [lia|].
  destruct (Z.le_gt_cases n (Zdigits2 m)).
  - rewrite Z.max_l by lia. rewrite <-Z.pow_add_r by lia.
    by replace (n + (Zdigits2 m - n)) with (Zdigits2 m) by lia.
  - rewrite Z.max_r by lia. rewrite Z.pow_0_r, Z.mul_1_r.
    eapply Z.lt_le_trans; [exact Hlt|]. apply Z.pow_le_mono_r; lia.
Qed.

Lemma Zdigits2_succ m : 0 ≤ m → Zdigits2 (m + 1) ≤ Zdigits2 m + 1.
Proof.
  intros Hm. pose proof (Zdigits2_lt_pow m Hm). pose proof (Zdigits2_nonneg m).
  apply Zdigits2_le; [lia|]. split; [lia|].
  rewrite Z.pow_add_r, Z.pow_1_r by lia. lia.
Qed.

Lemma Zdigits2_mono m n : 0 ≤ m ≤ n → Zdigits2 m ≤ Zdigits2 n.
Proof.
  intros [Hm Hmn]. apply Zdigits2_le; [apply Zdigits2_nonneg|].
  split; [done|]. eapply Z.le_lt_trans; [exact Hmn|]. apply Zdigits2_lt_pow. lia.
Qed.

(** A product has at most the digits of its factors. *)
Lemma Zdigits2_mul a b :
  Zdigits2 (Zpos (a * b)) ≤ Zdigits2 (Zpos a) + Zdigits2 (Zpos b).
Proof.
  pose proof (Zdigits2_lt_pow (Zpos a) ltac:(lia)).
  pose proof (Zdigits2_lt_pow (Zpos b) ltac:(lia)).
  pose proof (Zdigits2_nonneg (Zpos a)). pose proof (Zdigits2_nonneg (Zpos b)).
  apply Zdigits2_le; [lia|]. split; [lia|].
  rewrite Pos2Z.inj_mul, Z.pow_add_r by lia. nia.
Qed.

(** One step of the shift halves the mantissa. *)
Lemma shr_1_m mrs :
  0 ≤ shr_m mrs → shr_m (shr_1 mrs) = shr_m mrs / 2.
Proof.
  destruct mrs as [m r s]. simpl. intros Hm.
  destruct m as [|[p|p|]|p]; simpl shr_m; try lia; try done.
  - apply (Z.div_unique _ _ _ 1); lia.
  - apply (Z.div_unique _ _ _ 0); lia.
Qed.

Lemma pow2_xO p : 2 ^ Z.pos p~0 = 2 ^ Z.pos p * 2 ^ Z.pos p.
Proof. rewrite <-Z.pow_add_r by lia. f_equal. lia. Qed.

Lemma pow2_xI p : 2 ^ Z.pos p~1 = 2 * (2 ^ Z.pos p * 2 ^ Z.pos p).
Proof.
  rewrite <-Z.pow_add_r, <-Z.pow_succ_r by lia. f_equal. lia.
Qed.

(** [p] steps of the shift divide the mantissa by [2 ^ p]. *)
Lemma iter_shr_1_m p mrs :
  0 ≤ shr_m mrs →
  shr_m (SpecFloat.iter_pos shr_1 p mrs) = shr_m mrs / 2 ^ Zpos p.
Proof.
  revert mrs. induction p as [p IH|p IH|]; intros mrs Hm; simpl SpecFloat.iter_pos.
  - assert (0 ≤ shr_m (shr_1 mrs)) as H1
      by (rewrite shr_1_m by done; apply Z.div_pos; lia).
    assert (0 < 2 ^ Z.pos p) by (apply Z.pow_pos_nonneg; lia).
    assert (0 ≤ shr_m (SpecFloat.iter_pos shr_1 p (shr_1 mrs))) as H2
      by (rewrite IH by done; apply Z.div_pos; lia).
    rewrite IH, IH, shr_1_m by done.
    by rewrite !Z.div_div, pow2_xI by lia.
  - assert (0 < 2 ^ Z.pos p) by (apply Z.pow_pos_nonneg; lia).
    assert (0 ≤ shr_m (SpecFloat.iter_pos shr_1 p mrs)) as H2
      by (rewrite IH by done; apply Z.div_pos; lia).
    rewrite IH, IH by done.
    by rewrite !Z.div_div, pow2_xO by lia.
  - by rewrite shr_1_m.
Qed.

(** [shr] shifts a mantissa that is not negative to the right, by [n]
    places when [n] is positive. *)
Lemma shr_spec mrs e n :
  0 ≤ shr_m mrs →
  shr_m (shr mrs e n).1 = shr_m mrs / 2 ^ Z.max n 0 ∧
  (shr mrs e n).2 = e + Z.max n 0.
Proof.
  intros Hm. destruct n as [|p|p]; simpl.
  - rewrite Z.div_1_r. lia.
  - rewrite iter_shr_1_m by done. rewrite Z.max_l by lia. done.
  - rewrite Z.div_1_r. lia.
Qed.

Lemma shr_m_of_loc m l : shr_m (shr_record_of_loc m l) = m.
Proof. by destruct l as [|[]]. Qed.

Lemma round_nearest_even_bounds m l :
  m ≤ round_nearest_even m l ≤ m + 1.
Proof. unfold round_nearest_even. repeat case_match; lia. Qed.

(** The exponent and the magnitude of what [binary_round_aux] gives, when
    the exponent stays in range. *)
Lemma binary_round_aux_finite s m e :
  let mu := Zdigits2 (Zpos m) + e in
  Z.max e (mu - 52) ≤ emax - prec →
  match binary_round_aux prec emax s (Zpos m) e loc_Exact with
  | S754_zero _ => True
  | S754_finite _ m' e' =>
      e' ≤ Z.max (Z.max e (mu - 52)) (emin prec emax) ∧
      Zdigits2 (Zpos m') + e' ≤ Z.max (mu + 1) (emin prec emax + 1)
  | _ => False
  end.
Proof.
  intros mu Hmu. unfold binary_round_aux, shr_fexp.
  set (n1 := fexp prec emax (Zdigits2 (Z.pos m) + e) - e).
  destruct (shr_spec (shr_record_of_loc (Z.pos m) loc_Exact) e n1) as [Hm1 He1];
    [rewrite shr_m_of_loc; lia|].
  destruct (shr (shr_record_of_loc (Z.pos m) loc_Exact) e n1) as [mrs1 e1].
  simpl in Hm1, He1. 
  set (m1 := round_nearest_even (shr_m mrs1) (loc_of_shr_record mrs1)).
  pose proof (round_nearest_even_bounds (shr_m mrs1) (loc_of_shr_record mrs1)) as Hr.
  fold m1 in Hr.
  assert (0 < 2 ^ Z.max n1 0) by (apply Z.pow_pos_nonneg; lia).
  assert (0 ≤ shr_m mrs1) as Hm1pos by (rewrite Hm1; apply Z.div_pos; lia).
  set (n2 := fexp prec emax (Zdigits2 m1 + e1) - e1).
  destruct (shr_spec (shr_record_of_loc m1 loc_Exact) e1 n2) as [Hm2 He2];
    [rewrite shr_m_of_loc; lia|].
  destruct (shr (shr_record_of_loc m1 loc_Exact) e1 n2) as [mrs2 e2].
  simpl in Hm2, He2.
  assert (0 < 2 ^ Z.max n2 0) by (apply Z.pow_pos_nonneg; lia).
  pose proof (Zdigits2_div (Z.pos m) (Z.max n1 0) ltac:(lia) ltac:(lia)) as Hd1.
  rewrite <-Hm1 in Hd1.
  pose proof (Zdigits2_mono (shr_m mrs1) m1 ltac:(lia)) as Hmono1.
  pose proof (Zdigits2_mono m1 (shr_m mrs1 + 1) ltac:(lia)) as Hmono2.
  pose proof (Zdigits2_succ (shr_m mrs1) Hm1pos) as Hsucc.
  pose proof (Zdigits2_div m1 (Z.max n2 0) ltac:(lia) ltac:(lia)) as Hd2.
  rewrite <-Hm2 in Hd2.
  assert (0 ≤ shr_m mrs2) as Hm2pos by (rewrite Hm2; apply Z.div_pos; lia).
  pose proof (Zdigits2_nonneg (Z.pos m)).
  assert (1 ≤ Zdigits2 (Z.pos m)) by (simpl; lia).
  unfold fexp, emin, prec, emax in *.
  destruct (shr_m mrs2) as [|m2|m2] eqn:Hmrs2; [done| |lia].
  assert (1 ≤ Zdigits2 (Z.pos m2)) by (simpl; lia).
  assert (e2 ≤ Z.max (Z.max e (mu - 52)) (3 - 1024 - 53)) as He2b.
  { subst mu n1 n2. lia. }
  rewrite (proj2 (Z.leb_le _ _)) by lia.
  split; [done|]. subst mu n1 n2. lia.
Qed.

Lemma digits2_pos_iter_xO m d :
  Zpos (digits2_pos (Pos.iter xO m d)) = Zpos (digits2_pos m) + Zpos d.
Proof.
  induction d as [|d IH] using Pos.peano_ind.
  - simpl. lia.
  - rewrite Pos.iter_succ. simpl digits2_pos. lia.
Qed.

(** The alignment keeps the magnitude and does not raise the exponent. *)
Lemma shl_align_spec m e e' :
  Zdigits2 (Zpos (shl_align m e e').1) + (shl_align m e e').2
    = Zdigits2 (Zpos m) + e ∧
  (shl_align m e e').2 ≤ e.
Proof.
  unfold shl_align. destruct (e' - e) as [|d|d] eqn:Hd; simpl; [lia..|].
  rewrite digits2_pos_iter_xO. lia.
Qed.

(** The rounding of an integer below [2 ^ k] is finite, of magnitude
    [2 ^ (k + 1)] at most. *)
Lemma binary_round_below s m k :
  0 ≤ k ≤ 1000 → Zpos m < 2 ^ k →
  match binary_round prec emax s m 0 with
  | S754_infinity _ | S754_nan => False
  | g => below (k + 1) g
  end.
Proof.
  intros Hk Hm. unfold binary_round.
  destruct (shl_align_spec m 0 (fexp prec emax (Z.pos (digits2_pos m) + 0)))
    as [Hmu He].
  destruct (shl_align m 0 _) as [mz ez]. simpl in Hmu, He.
  pose proof (Zdigits2_le (Zpos m) k ltac:(lia) ltac:(lia)) as Hd. simpl in Hd.
  pose proof (binary_round_aux_finite s mz ez) as Hr. simpl in Hr.
  unfold prec, emax, emin in *.
  destruct (binary_round_aux 53 1024 s (Z.pos mz) ez loc_Exact); simpl; lia.
Qed.

(** [float(n)] does not raise for an int below [2 ^ 1000]. *)
Lemma of_int_below n k :
  0 ≤ k ≤ 1000 → Z.abs n < 2 ^ k →
  ∃ g, of_int n = Ok g ∧ below (k + 1) g.
Proof.
  intros Hk Hn. unfold of_int, binary_normalize. destruct n as [|m|m].
  - by eexists.
  - pose proof (binary_round_below false m k Hk ltac:(lia)) as Hr.
    destruct (binary_round prec emax false m 0); try done; by eexists.
  - pose proof (binary_round_below true m k Hk ltac:(lia)) as Hr.
    destruct (binary_round prec emax true m 0); try done; by eexists.
Qed.

(** The product of two finite floats is finite when their magnitudes add
    up to [2 ^ 971] at most. *)
Lemma SFmul_below f g kf kg :
  below kf f → below kg g → 0 ≤ kf + kg ≤ 971 →
  below (kf + kg + 1) (SFmul prec emax f g).
Proof.
  destruct f as [sf|sf| |sf mf ef], g as [sg|sg| |sg mg eg]; simpl; try done.
  intros Hf Hg Hk.
  pose proof (binary_round_aux_finite (xorb sf sg) (mf * mg) (ef + eg)) as Hr.
  pose proof (Zdigits2_mul mf mg) as Hmul. simpl in Hr, Hmul.
  assert (1 ≤ Z.pos (digits2_pos mf)) by lia.
  assert (1 ≤ Z.pos (digits2_pos mg)) by lia.
  unfold prec, emax, emin in *.
  destruct (binary_round_aux 53 1024 (xorb sf sg) (Z.pos (mf * mg)) (ef + eg) loc_Exact);
    simpl; lia.
Qed.

Lemma to_int_below k f : below k f → is_Ok (to_int f).
Proof. destruct f; simpl; try done; intros _; by eexists. Qed.

(** The product of a float below 2 and an int below [2 ^ 64] has an
    integer part. *)
Lemma mul_int_to_int f n :
  below 1 f → Z.abs n < 2 ^ 64 →
  is_Ok (mul_int f n ≫= to_int).
Proof.
  intros Hf Hn. unfold mul_int.
  destruct (of_int_below n 64 ltac:(lia) Hn) as (g & -> & Hg). cbn.
  apply (to_int_below (1 + 65 + 1)). by apply SFmul_below.
Qed.

End FloatFacts.

(** The four products of a conversion, and the four truncations. *)
Lemma bbox_of_Ok localization W H b :
  bbox_of localization W H = Ok b ↔
  ∃ fx fy fw fh w h,
    PyFloat.mul_int (Localization.x localization) W = Ok fx ∧
    PyFloat.mul_int (Localization.y localization) H = Ok fy ∧
    PyFloat.mul_int (Localization.width localization) W = Ok fw ∧
    PyFloat.mul_int (Localization.height localization) H = Ok fh ∧
    PyFloat.to_int fx = Ok (xmin b) ∧ PyFloat.to_int fy = Ok (ymin b) ∧
    PyFloat.to_int fw = Ok w ∧ PyFloat.to_int fh = Ok h ∧
    xmax b = w + xmin b ∧ ymax b = h + ymin b.
Proof.
  unfold bbox_of. split.
  - destruct (PyFloat.mul_int (Localization.x _) W) as [fx|]; [|done]. cbn.
    destruct (PyFloat.to_int fx) as [x0|] eqn:Hx; [|done]. cbn.
    destruct (PyFloat.mul_int (Localization.y _) H) as [fy|]; [|done]. cbn.
    destruct (PyFloat.to_int fy) as [y0|] eqn:Hy; [|done]. cbn.
    destruct (PyFloat.mul_int (Localization.width _) W) as [fw|]; [|done]. cbn.
    destruct (PyFloat.to_int fw) as [w0|] eqn:Hw; [|done]. cbn.
    destruct (PyFloat.mul_int (Localization.height _) H) as [fh|]; [|done]. cbn.
    destruct (PyFloat.to_int fh) as [h0|] eqn:Hh; [|done]. cbn.
    intros [= <-]. by exists fx, fy, fw, fh, w0, h0.
  - intros (fx & fy & fw & fh & w0 & h0 & -> & -> & -> & -> & Hx & Hy & Hw & Hh & Hxm & Hym).
    cbn. rewrite Hx. cbn. rewrite Hy. cbn. rewrite Hw. cbn. rewrite Hh. cbn.
    destruct b; simpl in *. by subst.
Qed.

(** The conversion of a normalized localization is defined. *)
Lemma bbox_of_normalized localization W H :
  normalized localization → Z.abs W < 2 ^ 64 → Z.abs H < 2 ^ 64 →
  is_Ok (bbox_of localization W H).
Proof.
  intros (Hx & Hy & Hw & Hh) HW HH. unfold bbox_of.
  destruct (FloatFacts.mul_int_to_int _ _ Hx HW) as [x0 ->].
  destruct (FloatFacts.mul_int_to_int _ _ Hy HH) as [y0 ->].
  destruct (FloatFacts.mul_int_to_int _ _ Hw HW) as [w0 ->].
  destruct (FloatFacts.mul_int_to_int _ _ Hh HH) as [h0 ->].
  by eexists.
Qed.

(** ** Logs that grow *)

Global Instance extends_with_preorder P : PreOrder (extends_with P).
Proof.
  split.
  - intros w. exists []. by rewrite app_nil_r.
  - intros w1 w2 w3 (evs1 & H1 & HP1) (evs2 & H2 & HP2).
    exists (evs1 ++ evs2). rewrite H2, H1, (assoc_L (++)). split; [done|].
    by apply Forall_app.
Qed.

Lemma extends_with_mono (P Q : Event → Prop) w w' :
  (∀ e, P e → Q e) → extends_with P w w' → extends_with Q w w'.
Proof.
  intros HPQ (evs & H & HP). exists evs. split; [done|].
  eapply Forall_impl; eauto.
Qed.

Lemma extends_with_emit (P : Event → Prop) e files' w :
  P e → extends_with P w (emit e (mkWorld files' (log w))).
Proof. intros He. exists [e]. split; [done|]. by constructor. Qed.

Lemma saves_app l1 l2 : saves (l1 ++ l2) = saves l1 ++ saves l2.
Proof. apply omap_app. Qed.



Lemma saves_Save p d l : saves (Save p d :: l) = (p, d) :: saves l.
Proof. reflexivity. Qed.

Lemma saves_not_Save evs :
  Forall (λ e, ∀ p d, e ≠ Save p d) evs → saves evs = [].
Proof.
  induction 1 as [|e evs He _ IH]; [done|].
  destruct e as [line|i fs|src dst|p d]; try done. by destruct (He p d).
Qed.

Lemma preserves_print P line : P (Print line) → preserves (extends_with P) (print line).
Proof. intros HP [fs l]. by apply (extends_with_emit P _ fs (mkWorld fs l)). Qed.

Lemma preserves_download_image (P : Event → Prop)
    frame media_name media_dir api media_id download :
  P (GetFrame media_id [frame]) →
  P (Move (get_frame api media_id [frame]) (dst_of media_dir media_name frame)) →
  preserves (extends_with P)
    (download_image frame media_name media_dir api media_id download).
Proof.
  intros HG HM w. rewrite download_image_run. cbn [snd].
  case_match; [|reflexivity].
  eexists. split; [reflexivity|]. by repeat constructor.
Qed.

(** ** Reshaping and grouping *)

Lemma reshape_Ok e localization loc :
  reshape e localization = Ok loc ↔
    to_dict loc = localization ∧
    bbox_of localization (media_width e) (media_height e) = Ok (bbox loc) ∧
    path loc = image_path (media_name e) (Localization.frame localization) ∧
    class_category loc
      = default "Unknown" (loc_id_to_class e !! Localization.id localization).
Proof.
  unfold reshape, getitem. fold (stem (media_name e)).
  fold (image_path (media_name e) (Localization.frame localization)).
  destruct (bbox_of _ _ _) as [b|ex]; cbn.
  - split.
    + intros [= <-]. simpl. by destruct (loc_id_to_class e !! _).
    + destruct loc as [l b' p c]. simpl. intros (-> & [= ->] & -> & ->).
      by destruct (loc_id_to_class e !! _).
  - split; [done|]. by intros (_ & ? & _).
Qed.

(** The localizations of a well-formed entry reshape. *)
Lemma reshape_well_formed e :
  well_formed e → ∃ locs, rmap (reshape e) (localizations e) = Ok locs.
Proof.
  intros (Hn & HW & HH). apply rmap_is_Ok.
  eapply Forall_impl; [exact Hn|]. intros l Hl.
  destruct (bbox_of_normalized l _ _ Hl HW HH) as [b Hb].
  eexists (mkLoc l b _ _). apply reshape_Ok. by split_and!.
Qed.

Lemma on_frame_snoc frame locs entry :
  on_frame frame (locs ++ [entry])
  = on_frame frame locs
    ++ (if decide (Localization.frame (to_dict entry) = frame) then [entry] else []).
Proof.
  unfold on_frame. rewrite filter_app, filter_cons, filter_nil.
  by case_decide.
Qed.

Lemma group_body_spec m seen entry :
  (∀ frame, m !! frame = group_spec seen frame) →
  ∀ frame, group_body m entry !! frame = group_spec (seen ++ [entry]) frame.
Proof.
  intros Hm frame. unfold group_body, group_spec.
  rewrite on_frame_snoc.
  set (f := Localization.frame (to_dict entry)).
  pose proof (Hm f) as Hf. unfold group_spec in Hf.
  destruct (decide (f = frame)) as [->|Hne].
  - destruct (m !! frame) as [l|] eqn:Hl; rewrite lookup_insert_eq.
    + destruct (on_frame frame seen); simplify_eq. done.
    + by destruct (on_frame frame seen).
  - rewrite app_nil_r.
    destruct (m !! f); rewrite lookup_insert_ne by done; apply Hm.
Qed.

Lemma frame_localizations_lookup locs frame :
  foldl group_body ∅ locs !! frame = group_spec locs frame.
Proof.
  cut (∀ m seen, (∀ f, m !! f = group_spec seen f) →
         ∀ f, foldl group_body m locs !! f = group_spec (seen ++ locs) f).
  { intros H. by apply (H ∅ []). }
  induction locs as [|entry locs IH]; intros m seen Hm f; simpl.
  - by rewrite app_nil_r.
  - rewrite (IH _ (seen ++ [entry])), <-(assoc_L (++)); [done|].
    by apply group_body_spec.
Qed.

Lemma elem_of_frames_w_localizations frame localizations :
  frame ∈ frames_w_localizations localizations ↔
  ∃ l, l ∈ localizations ∧ Localization.frame l = frame.
Proof.
  unfold frames_w_localizations.
  rewrite elem_of_elements, elem_of_list_to_set, list_elem_of_fmap.
  split; intros (l & H1 & H2); exists l; by split.
Qed.

Lemma NoDup_frames_w_localizations localizations :
  NoDup (frames_w_localizations localizations).
Proof. unfold frames_w_localizations. apply NoDup_elements. Qed.

(** ** Exporting *)

Lemma export_frame_run e fl frame w :
  run (export_frame e fl frame) w =
    match fl !! frame with
    | None => (Raise (KeyError (pretty frame)), w)
    | Some [] => (Raise IndexError, w)
    | Some (first :: rest) =>
        (Ok (), saved (LABEL_DIR +:+ Str.replace ".jpg" ".xml" (Str.basename (path first)))
                  (annotation e (path first) (first :: rest)) w)
    end.
Proof.
  unfold export_frame, getitem. rewrite run_bind, run_lift.
  destruct (fl !! frame) as [[|first locs]|]; reflexivity.
Qed.

Lemma on_frame_reshaped e localizations locs frame :
  rmap (reshape e) localizations = Ok locs →
  Forall2 (λ l loc, reshape e l = Ok loc)
    (filter (λ l, Localization.frame l = frame) localizations)
    (on_frame frame locs).
Proof.
  rewrite rmap_Ok_Forall2. induction 1 as [|l loc ls locs Hl _ IH]; [constructor|].
  unfold on_frame. rewrite !filter_cons.
  apply reshape_Ok in Hl as Hl'. destruct Hl' as (-> & _).
  case_decide; [constructor|]; done.
Qed.

Lemma export_frame_reshaped e locs frame w :
  rmap (reshape e) (localizations e) = Ok locs →
  frame ∈ frames_w_localizations (localizations e) →
  run (export_frame e (foldl group_body ∅ locs) frame) w
  = (Ok (), saved (xml_path (media_name e) frame) (frame_doc e locs frame) w).
Proof.
  intros Hlocs (l & Hl & Hf)%elem_of_frames_w_localizations.
  pose proof (on_frame_reshaped _ _ _ frame Hlocs) as H2.
  rewrite export_frame_run, frame_localizations_lookup. unfold group_spec, frame_doc.
  destruct (on_frame frame locs) as [|first rest] eqn:Hon.
  - apply Forall2_nil_inv_r in H2.
    assert (l ∈ filter (λ l, Localization.frame l = frame) (localizations e)) as Hin
      by (by apply list_elem_of_filter).
    rewrite H2 in Hin. by apply elem_of_nil in Hin.
  - assert (path first = image_path (media_name e) frame) as ->.
    { assert (first ∈ on_frame frame locs) as Hin by (rewrite Hon; left).
      apply list_elem_of_filter in Hin as [Hfr Hin].
      apply rmap_Ok_Forall2 in Hlocs.
      apply list_elem_of_lookup in Hin as [i Hi].
      destruct (Forall2_lookup_r _ _ _ i first Hlocs Hi) as (l' & _ & Hl').
      apply reshape_Ok in Hl' as (Hd & _ & -> & _). by rewrite <-Hd, Hfr. }
    by rewrite PathFacts.xml_path_of_image_path.
Qed.

Lemma mfor_run {A} (l : list A) (body : A → M unit) (g : A → World → World) w :
  (∀ x w, x ∈ l → run (body x) w = (Ok (), g x w)) →
  run (mfor l body) w = (Ok (), foldl (λ w x, g x w) w l).
Proof.
  revert w. induction l as [|x l IH]; intros w H; [done|].
  rewrite mfor_cons, run_bind, H by left. simpl.
  apply IH. intros y w' Hy. apply H. by right.
Qed.

Lemma log_exported e locs frames w :
  log (exported e locs frames w)
  = log w ++ ((λ frame, Save (xml_path (media_name e) frame) (frame_doc e locs frame))
                <$> frames).
Proof.
  revert w. unfold exported.
  induction frames as [|frame frames IH]; intros w; simpl.
  - by rewrite app_nil_r.
  - rewrite IH. simpl. by rewrite <-(assoc_L (++)).
Qed.

Lemma files_exported e locs frames w p :
  (∀ frame, frame ∈ frames → p ≠ xml_path (media_name e) frame) →
  files (exported e locs frames w) !! p = files w !! p.
Proof.
  revert w. unfold exported.
  induction frames as [|frame frames IH]; intros w H; simpl; [done|].
  rewrite IH by (intros f Hf; apply H; by right). simpl.
  apply lookup_insert_ne. intros Heq. by apply (H frame); [left|].
Qed.

(** *** The download block *)

Lemma download_frames_result api DOWNLOAD e w :
  (run (download_frames api DOWNLOAD e) w).1
  = Ok (image_path (media_name e) <$> frames_w_localizations (localizations e)).
Proof.
  unfold download_frames. revert w.
  induction (frames_w_localizations (localizations e)) as [|frame frames IH];
    intros w; [done|].
  rewrite mmap_cons, run_bind, download_image_run, run_bind.
  match goal with |- context [run (mmap ?f frames) ?w'] =>
    specialize (IH w'); destruct (run (mmap f frames) w') as [r w''] end.
  simpl in IH. by subst r.
Qed.

(** With the flag off, the block leaves the world as it is. *)
Lemma download_frames_off api e w :
  (run (download_frames api false e) w).2 = w.
Proof.
  unfold download_frames. revert w.
  induction (frames_w_localizations (localizations e)) as [|frame frames IH];
    intros w; [done|].
  rewrite mmap_cons, run_bind, download_image_run, run_bind. cbn [andb].
  specialize (IH w).
  destruct (run (mmap _ frames) w) as [[ys|ex] w']; simpl in *; by subst.
Qed.

Lemma download_frames_events api DOWNLOAD e :
  preserves (extends_with (download_event api e)) (download_frames api DOWNLOAD e).
Proof.
  unfold download_frames. apply (preserves_mmap (extends_with _)).
  intros frame Hframe. apply preserves_download_image; exists frame; eauto.
Qed.

(** *** One media *)

Lemma process_media_run api DOWNLOAD e w :
  run (process_media api DOWNLOAD e) w =
    match rmap (reshape e) (localizations e) with
    | Ok locs =>
        (Ok (), exported e locs (frames_w_localizations (localizations e))
                  (downloaded api DOWNLOAD e w))
    | Raise ex => (Raise ex, downloaded api DOWNLOAD e w)
    end.
Proof.
  unfold process_media, downloaded. rewrite run_bind. cbn [run print].
  rewrite run_bind.
  pose proof (download_frames_result api DOWNLOAD e
                (emit (Print ("Downloading frames and annotations for:  "
                              +:+ media_name e)) w)) as Hr.
  destruct (run (download_frames api DOWNLOAD e) _) as [r w1]. simpl in Hr.
  subst r. cbn [snd]. rewrite run_bind, run_lift.
  destruct (rmap (reshape e) (localizations e)) as [locs|ex] eqn:Hlocs; [|done].
  apply mfor_run. intros frame w' Hframe. by apply export_frame_reshaped.
Qed.

Lemma downloaded_events api DOWNLOAD e w :
  extends_with (λ ev, is_print ev = true ∨ download_event api e ev)
    w (downloaded api DOWNLOAD e w).
Proof.
  unfold downloaded.
  set (ev := Print ("Downloading frames and annotations for:  " +:+ media_name e)).
  trans (emit ev w).
  - destruct w as [fs l]. apply (extends_with_emit _ _ fs (mkWorld fs l)). by left.
  - eapply extends_with_mono; [|apply download_frames_events]. naive_solver.
Qed.

Lemma saves_downloaded api DOWNLOAD e w :
  saves (log (downloaded api DOWNLOAD e w)) = saves (log w).
Proof.
  destruct (downloaded_events api DOWNLOAD e w) as (evs & -> & Hevs).
  rewrite saves_app, (saves_not_Save evs), app_nil_r; [done|].
  eapply Forall_impl; [done|]. intros ev [Hp|(f & _ & [-> | ->])] p d; try done.
  by intros ->.
Qed.

Lemma process_media_saves api DOWNLOAD e w locs :
  rmap (reshape e) (localizations e) = Ok locs →
  (run (process_media api DOWNLOAD e) w).1 = Ok () ∧
  saves (log (run (process_media api DOWNLOAD e) w).2)
  = saves (log w) ++ media_saves e locs.
Proof.
  intros Hlocs. rewrite process_media_run, Hlocs. split; [done|]. cbn [snd].
  rewrite log_exported, saves_app, saves_downloaded. f_equal.
  unfold media_saves. induction (frames_w_localizations _) as [|f fs IH]; [done|].
  by rewrite !fmap_cons, saves_Save, IH.
Qed.

(** ** The collector *)

Lemma rfold_app {A B} (f : A → B → result A) acc l1 l2 :
  rfold f acc (l1 ++ l2) = (acc' ← rfold f acc l1; rfold f acc' l2).
Proof.
  revert acc. induction l1 as [|x l1 IH]; intros acc; [done|].
  simpl. destruct (f acc x) as [acc'|ex]; [|done]. apply IH.
Qed.

Lemma rfold_tracks acc tracks :
  rfold (λ acc track, rfold track_body acc (Track.localizations track)) acc tracks
  = rfold track_body acc (track_localizations tracks).
Proof.
  revert acc. induction tracks as [|t tracks IH]; intros acc; [done|].
  unfold track_localizations. rewrite fmap_cons. simpl. rewrite rfold_app.
  destruct (rfold track_body acc _) as [acc'|ex]; [|done]. apply IH.
Qed.

Lemma keep_has_class acc l :
  has_class l → keep acc l = Ok (kept acc [l]).
Proof.
  intros [c Hc]. unfold keep, getitem, kept, class_of. rewrite Hc. cbn.
  by rewrite Hc.
Qed.

Lemma keep_no_class acc l :
  ¬ has_class l → keep acc l = Raise (KeyError "ScientificName").
Proof.
  intros Hc. unfold keep, getitem. unfold has_class in Hc.
  destruct (Localization.attributes l !! "ScientificName"); [|done].
  destruct Hc. by eexists.
Qed.

Lemma kept_app acc l1 l2 : kept acc (l1 ++ l2) = kept (kept acc l1) l2.
Proof. apply foldl_app. Qed.

Lemma rfold_cons {A B} (f : A → B → result A) acc x l :
  rfold f acc (x :: l) = (acc' ← f acc x; rfold f acc' l).
Proof. reflexivity. Qed.

Lemma localization_body_eq acc l :
  localization_body acc l
  = if decide (has_class l) then Ok (kept acc [l]) else Ok acc.
Proof.
  unfold localization_body. fold (has_class l). case_decide.
  - rewrite bool_decide_eq_true_2 by done. by apply keep_has_class.
  - by rewrite bool_decide_eq_false_2.
Qed.

Lemma track_body_eq acc l :
  track_body acc l
  = if decide (track_key l)
    then if decide (has_class l) then Ok (kept acc [l])
         else Raise (KeyError "ScientificName")
    else Ok acc.
Proof.
  unfold track_body. fold (track_key l). case_decide.
  - rewrite bool_decide_eq_true_2 by done.
    case_decide; [by apply keep_has_class | by apply keep_no_class].
  - by rewrite bool_decide_eq_false_2.
Qed.

Lemma rfold_localization_body acc ls :
  rfold localization_body acc ls = Ok (kept acc (filter has_class ls)).
Proof.
  revert acc. induction ls as [|l ls IH]; intros acc; [done|].
  rewrite rfold_cons, localization_body_eq, filter_cons.
  case_decide; cbn; apply IH.
Qed.

(** The loop through the tracks ends exactly when every localization that
    has the key of its test has the class key too. *)
Lemma rfold_track_body acc ls :
  rfold track_body acc ls =
    if decide (Forall (λ l, track_key l → has_class l) ls)
    then Ok (kept acc (filter track_key ls))
    else Raise (KeyError "ScientificName").
Proof.
  revert acc. induction ls as [|l ls IH]; intros acc.
  - by rewrite decide_True by constructor.
  - rewrite rfold_cons, track_body_eq, filter_cons.
    destruct (decide (track_key l)) as [Hk|Hk];
      [destruct (decide (has_class l)) as [Hl|Hl]|]; cbn; rewrite ?IH.
    + destruct (decide (Forall _ ls)) as [Hls|Hls].
      * by rewrite decide_True by (by constructor).
      * rewrite decide_False; [done|]. by intros [_ ?]%Forall_cons.
    + rewrite decide_False; [done|]. intros [? _]%Forall_cons. auto.
    + destruct (decide (Forall _ ls)) as [Hls|Hls].
      * rewrite decide_True; [done|]. by constructor.
      * rewrite decide_False; [done|]. by intros [_ ?]%Forall_cons.
Qed.

Lemma collect_localizations_run ALL_CLASSES_LIST tracks localizations :
  collect_localizations ALL_CLASSES_LIST tracks localizations =
    if decide (Forall (λ l, track_key l → has_class l) (track_localizations tracks))
    then Ok (kept (mkCollected ∅ [] ALL_CLASSES_LIST)
               (kept_localizations tracks localizations))
    else Raise (KeyError "ScientificName").
Proof.
  unfold collect_localizations. rewrite rfold_tracks, rfold_track_body.
  case_decide; [|done]. cbn.
  by rewrite rfold_localization_body, <-kept_app.
Qed.

Lemma kept_media_localizations acc ls :
  c_media_localizations (kept acc ls) = c_media_localizations acc ++ ls.
Proof.
  revert acc. induction ls as [|l ls IH]; intros acc; simpl.
  - by rewrite app_nil_r.
  - unfold kept in IH. rewrite IH. simpl. by rewrite <-(assoc_L (++)).
Qed.

Lemma kept_ALL_CLASSES_LIST acc ls :
  c_ALL_CLASSES_LIST (kept acc ls) = c_ALL_CLASSES_LIST acc ++ (class_of <$> ls).
Proof.
  revert acc. induction ls as [|l ls IH]; intros acc; simpl.
  - by rewrite app_nil_r.
  - unfold kept in IH. rewrite IH. simpl. by rewrite <-(assoc_L (++)).
Qed.

(** The lookup has the class of the last localization kept under an id. *)
Lemma kept_lookup acc ls i :
  c_loc_id_to_class (kept acc ls) !! i =
    match last (filter (λ l, Localization.id l = i) ls) with
    | Some l => Some (class_of l)
    | None => c_loc_id_to_class acc !! i
    end.
Proof.
  revert acc. induction ls as [|l ls IH]; intros acc; [done|].
  simpl. unfold kept in IH. rewrite IH. simpl. rewrite filter_cons.
  destruct (decide (Localization.id l = i)) as [->|Hne].
  - rewrite lookup_insert_eq, last_cons. by destruct (last (filter _ ls)).
  - by rewrite lookup_insert_ne.
Qed.

Lemma kept_lookup_is_Some acc ls l :
  l ∈ ls → is_Some (c_loc_id_to_class (kept acc ls) !! Localization.id l).
Proof.
  intros Hl. rewrite kept_lookup.
  destruct (last (filter _ ls)) as [l'|] eqn:Hlast; [by eexists|].
  apply last_None in Hlast.
  assert (l ∈ filter (λ l0, Localization.id l0 = Localization.id l) ls) as Hin
    by (by apply list_elem_of_filter).
  rewrite Hlast in Hin. by apply elem_of_nil in Hin.
Qed.

(** ** The objects of a document *)

Lemma objects_annotation e img_path locs :
  Writer.objects (annotation e img_path locs) = object_of_loc <$> locs.
Proof.
  unfold annotation.
  cut (∀ writer,
         Writer.objects
           (foldl (λ writer loc,
                     Writer.addObject writer (class_category loc)
                       (xmin (bbox loc)) (ymin (bbox loc))
                       (xmax (bbox loc)) (ymax (bbox loc))) writer locs)
         = Writer.objects writer ++ (object_of_loc <$> locs)).
  { intros H. by rewrite H. }
  induction locs as [|loc locs IH]; intros writer; simpl.
  - by rewrite app_nil_r.
  - rewrite IH. simpl. by rewrite <-(assoc_L (++)).
Qed.

Lemma elem_of_media_saves e locs frame :
  frame ∈ frames_w_localizations (localizations e) →
  (xml_path (media_name e) frame, frame_doc e locs frame) ∈ media_saves e locs.
Proof.
  intros H. unfold media_saves.
  by apply (list_elem_of_fmap_2 (λ f, (xml_path (media_name e) f, frame_doc e locs f))).
Qed.


Lemma files_exported_at e locs frames w frame :
  NoDup frames → frame ∈ frames →
  files (exported e locs frames w) !! xml_path (media_name e) frame
  = Some (Xml (frame_doc e locs frame)).
Proof.
  unfold exported. intros Hnd. revert w.
  induction Hnd as [|f frames Hf Hnd IH]; intros w; [by intros ?%elem_of_nil|].
  simpl. intros [->|Hin]%elem_of_cons; [|by apply IH].
  fold (exported e locs frames (saved (xml_path (media_name e) f) (frame_doc e locs f) w)).
  rewrite files_exported.
  - simpl. apply lookup_insert_eq.
  - intros f' Hf' Heq%(inj (xml_path _)). by subst.
Qed.


(** The label of a localization without an entry in the lookup, in a media
    whose localizations reshape. *)
Lemma unknown_label_of_reshaped api DOWNLOAD e w locs l :
  rmap (reshape e) (localizations e) = Ok locs →
  l ∈ localizations e →
  loc_id_to_class e !! Localization.id l = None →
  ∃ doc b,
    bbox_of l (media_width e) (media_height e) = Ok b ∧
    (xml_path (media_name e) (Localization.frame l), doc)
      ∈ saves (log (run (process_media api DOWNLOAD e) w).2) ∧
    files (run (process_media api DOWNLOAD e) w).2
      !! xml_path (media_name e) (Localization.frame l) = Some (Xml doc) ∧
    Writer.mk_object "Unknown" (xmin b) (ymin b) (xmax b) (ymax b)
      ∈ Writer.objects doc.
Proof.
  intros Hlocs Hl Hnone.
  set (frame := Localization.frame l).
  assert (frame ∈ frames_w_localizations (localizations e)) as Hframe
    by (apply elem_of_frames_w_localizations; eauto).
  pose proof (on_frame_reshaped _ _ _ frame Hlocs) as H2.
  assert (l ∈ filter (λ l', Localization.frame l' = frame) (localizations e)) as Hin
    by (by apply list_elem_of_filter).
  apply list_elem_of_lookup in Hin as [i Hi].
  destruct (Forall2_lookup_l _ _ _ _ _ H2 Hi) as (loc & Hloc & Hr).
  apply reshape_Ok in Hr as (Hd & Hb & Hp & Hc).
  exists (frame_doc e locs frame), (bbox loc).
  destruct (process_media_saves api DOWNLOAD e w locs Hlocs) as [_ Hs].
  split_and!.
  - done.
  - rewrite Hs. apply elem_of_app. right. by apply elem_of_media_saves.
  - rewrite process_media_run, Hlocs. cbn [snd].
    apply files_exported_at; [apply NoDup_frames_w_localizations|done].
  - unfold frame_doc. rewrite objects_annotation.
    apply list_elem_of_fmap. exists loc. split.
    + unfold object_of_loc. by rewrite Hc, Hnone.
    + by eapply list_elem_of_lookup_2.
Qed.

(** ** Twice in a list *)

Lemma twice_app {A} (x : A) l1 l2 : x ∈ l1 → x ∈ l2 → twice x (l1 ++ l2).
Proof.
  intros (a & b & ->)%list_elem_of_split (c & d & ->)%list_elem_of_split.
  exists a, (b ++ c), d. by rewrite <-!(assoc_L (++)).
Qed.

Lemma twice_filter {A} (P : A → Prop) `{!∀ x, Decision (P x)} x l :
  P x → twice x l → twice x (filter P l).
Proof.
  intros HP (l1 & l2 & l3 & ->).
  exists (filter P l1), (filter P l2), (filter P l3).
  rewrite filter_app, filter_cons_True, filter_app, filter_cons_True by done.
  done.
Qed.

Lemma twice_fmap {A B} (f : A → B) x l : twice x l → twice (f x) (f <$> l).
Proof.
  intros (l1 & l2 & l3 & ->). exists (f <$> l1), (f <$> l2), (f <$> l3).
  by rewrite fmap_app, fmap_cons, fmap_app, fmap_cons.
Qed.

Lemma twice_Forall2 {A B} (R : A → B → Prop) x l k :
  (∀ y z, R x y → R x z → y = z) →
  Forall2 R l k → twice x l → ∃ y, R x y ∧ twice y k.
Proof.
  intros Hfun H2 (l1 & l2 & l3 & ->).
  apply Forall2_app_inv_l in H2 as (k1 & k' & _ & H2 & ->).
  apply Forall2_cons_inv_l in H2 as (y & k'' & Hy & H2 & ->).
  apply Forall2_app_inv_l in H2 as (k2 & k''' & _ & H2 & ->).
  apply Forall2_cons_inv_l in H2 as (z & k3 & Hz & _ & ->).
  rewrite (Hfun _ _ Hz Hy). exists y. split; [done|]. by exists k1, k2, k3.
Qed.

(** ** The events of a media *)

Lemma path_annotation e img_path locs :
  Writer.path (annotation e img_path locs) = img_path.
Proof.
  unfold annotation.
  cut (∀ writer,
         Writer.path
           (foldl (λ writer loc,
                     Writer.addObject writer (class_category loc)
                       (xmin (bbox loc)) (ymin (bbox loc))
                       (xmax (bbox loc)) (ymax (bbox loc))) writer locs)
         = Writer.path writer).
  { intros H. by rewrite H. }
  induction locs as [|loc locs IH]; intros writer; simpl; [done|].
  by rewrite IH.
Qed.

Lemma process_media_events api DOWNLOAD e w :
  extends_with
    (λ ev, is_print ev = true ∨ download_event api e ev ∨ save_event e ev)
    w (run (process_media api DOWNLOAD e) w).2.
Proof.
  rewrite process_media_run.
  assert (extends_with
            (λ ev, is_print ev = true ∨ download_event api e ev ∨ save_event e ev)
            w (downloaded api DOWNLOAD e w)) as Hd.
  { eapply extends_with_mono; [|apply downloaded_events].
    intros ev [Hev|Hev]; [by left | by right; left]. }
  destruct (rmap (reshape e) (localizations e)) as [locs|ex]; [|done].
  cbn [snd]. etrans; [exact Hd|].
  eexists. split; [apply log_exported|].
  apply Forall_fmap, Forall_forall. intros frame Hframe. simpl.
  right. right. by exists frame, locs.
Qed.


Lemma elem_of_saves p doc evs :
  (p, doc) ∈ saves evs ↔ Save p doc ∈ evs.
Proof.
  unfold saves. rewrite list_elem_of_omap. split.
  - intros (ev & Hev & Heq). destruct ev; simplify_eq. done.
  - intros H. by exists (Save p doc).
Qed.

(** ** The first cells, exactly *)

Lemma check_medias_run MEDIA_LIST medias w :
  run (check_medias MEDIA_LIST medias) w
  = (Ok (), mkWorld (files w)
              (log w ++ (check_message (Media.name <$> medias) <$> MEDIA_LIST))).
Proof.
  unfold check_medias. revert w.
  induction MEDIA_LIST as [|media MEDIA_LIST IH]; intros w.
  - cbn. rewrite app_nil_r. by destruct w.
  - rewrite mfor_cons, run_bind.
    replace (run (check_media (Media.name <$> medias) media) w)
      with (Ok (), emit (check_message (Media.name <$> medias) media) w)
      by (unfold check_media, check_message; by case_bool_decide).
    rewrite IH. cbn. by rewrite <-(assoc_L (++)).
Qed.

Lemma notebook_run api DOWNLOAD PROJECT_ID MEDIA_LIST w :
  run (notebook api DOWNLOAD PROJECT_ID MEDIA_LIST) w
  = run (c ← collect api PROJECT_ID MEDIA_LIST (get_media_list api PROJECT_ID);
         download_and_annotate api DOWNLOAD c.1)
        (checked api PROJECT_ID MEDIA_LIST w).
Proof.
  unfold notebook, get_medias. rewrite !run_bind. cbn [run print].
  rewrite run_ret, run_bind, check_medias_run. done.
Qed.

Lemma collect_media_run api PROJECT_ID MEDIA_LIST acc media w :
  run (collect_media api PROJECT_ID MEDIA_LIST acc media) w =
    if decide (Media.name media ∈ MEDIA_LIST) then
      let w' := emit (Print ("Collecting metadata for:  " +:+ Media.name media)) w in
      match collect_localizations acc.2
              (get_state_list api PROJECT_ID [Media.id media])
              (get_localization_list api PROJECT_ID [Media.id media]) with
      | Ok c => (Ok (acc.1 ++ [entry_of media c], c_ALL_CLASSES_LIST c), w')
      | Raise ex => (Raise ex, w')
      end
    else (Ok acc, w).
Proof.
  unfold collect_media. case_decide.
  - rewrite bool_decide_eq_false_2 by auto.
    rewrite run_bind. cbn [run print]. rewrite run_bind, run_lift.
    by destruct (collect_localizations _ _ _).
  - by rewrite bool_decide_eq_true_2.
Qed.

(** ** Two runs that agree on what is observed *)

Section Sim.
Context (vis : Event → bool) (with_files : bool).
#[local] Abbreviation sim := (sim vis with_files).
#[local] Abbreviation related := (related sim).

Lemma sim_emit ev (f : gmap string File → gmap string File) w1 w2 :
  sim w1 w2 →
  sim (emit ev (mkWorld (f (files w1)) (log w1)))
      (emit ev (mkWorld (f (files w2)) (log w2))).
Proof.
  intros [Hl Hf]. split; cbn.
  - by rewrite !filter_app, Hl.
  - intros Hw. by rewrite (Hf Hw).
Qed.

Lemma sim_hidden_l evs fs w1 w2 :
  with_files = false → Forall (λ ev, vis ev = false) evs →
  sim w1 w2 → sim (mkWorld fs (log w1 ++ evs)) w2.
Proof.
  intros Hw Hevs [Hl _]. split; cbn; [|by rewrite Hw].
  rewrite filter_app, Hl.
  replace (filter vis evs) with (@nil Event); [by rewrite app_nil_r|].
  induction Hevs as [|ev evs Hev _ IH]; [done|].
  rewrite filter_cons, decide_False; [done|]. by apply Is_true_false_2.
Qed.

Lemma sim_hidden_r evs fs w1 w2 :
  with_files = false → Forall (λ ev, vis ev = false) evs →
  sim w1 w2 → sim w1 (mkWorld fs (log w2 ++ evs)).
Proof.
  intros Hw Hevs [Hl _]. split; cbn; [|by rewrite Hw].
  rewrite filter_app, <-Hl.
  replace (filter vis evs) with (@nil Event); [by rewrite app_nil_r|].
  induction Hevs as [|ev evs Hev _ IH]; [done|].
  rewrite filter_cons, decide_False; [done|]. by apply Is_true_false_2.
Qed.

Lemma related_print line : related (print line) (print line).
Proof.
  intros [fs1 l1] [fs2 l2] H. split; [done|].
  apply (sim_emit _ (λ fs, fs) (mkWorld fs1 l1) (mkWorld fs2 l2) H).
Qed.

Lemma related_writer_save writer p :
  related (writer_save writer p) (writer_save writer p).
Proof.
  intros w1 w2 H. split; [done|].
  apply (sim_emit _ (λ fs, <[p := Xml writer]> fs) w1 w2 H).
Qed.

Lemma related_download_image frame media_name media_dir api media_id D1 D2 :
  flags_ok vis with_files D1 D2 →
  related (download_image frame media_name media_dir api media_id D1)
          (download_image frame media_name media_dir api media_id D2).
Proof.
  intros Hflags w1 w2 Hsim. rewrite !download_image_run. split; [done|]. cbn [snd].
  destruct Hflags as [[Hw <-]|[Hw Hhid]].
  - destruct Hsim as [Hl Hf]. rewrite (Hf Hw).
    case_match; [|done]. unfold fetched. split; cbn.
    + by rewrite !filter_app, Hl.
    + intros _. by rewrite (Hf Hw).
  - assert (∀ dst, Forall (λ ev, vis ev = false)
              [GetFrame media_id [frame]; Move (get_frame api media_id [frame]) dst])
      as Hevs by (intros; repeat constructor; by apply Hhid).
    repeat case_match; unfold fetched;
      repeat first [apply sim_hidden_l; [done|apply Hevs|]
                   |apply sim_hidden_r; [done|apply Hevs|]]; done.
Qed.

Lemma related_export_frame e fl frame :
  related (export_frame e fl frame) (export_frame e fl frame).
Proof.
  unfold export_frame. apply related_bind; [apply related_lift|]. intros locs.
  apply related_bind; [apply related_lift|]. intros first.
  apply related_writer_save.
Qed.

Lemma related_process_media api D1 D2 e :
  flags_ok vis with_files D1 D2 →
  related (process_media api D1 e) (process_media api D2 e).
Proof.
  intros Hflags. unfold process_media.
  apply related_bind; [apply related_print|]. intros _.
  apply related_bind.
  { unfold download_frames. apply related_mmap. intros frame _.
    by apply related_download_image. }
  intros img_paths. apply related_bind; [apply related_lift|]. intros locs.
  apply related_mfor. intros frame _. apply related_export_frame.
Qed.

Lemma related_download_and_annotate api D1 D2 entries :
  flags_ok vis with_files D1 D2 →
  related (download_and_annotate api D1 entries)
          (download_and_annotate api D2 entries).
Proof.
  intros Hflags. unfold download_and_annotate.
  apply related_mfor. intros e _. by apply related_process_media.
Qed.

Lemma related_collect_media api PROJECT_ID MEDIA_LIST acc media :
  related (collect_media api PROJECT_ID MEDIA_LIST acc media)
          (collect_media api PROJECT_ID MEDIA_LIST acc media).
Proof.
  unfold collect_media. case_bool_decide; [apply related_ret|].
  apply related_bind; [apply related_print|]. intros _.
  apply related_bind; [apply related_lift|]. intros c. apply related_ret.
Qed.

Lemma related_collect api PROJECT_ID MEDIA_LIST medias :
  related (collect api PROJECT_ID MEDIA_LIST medias)
          (collect api PROJECT_ID MEDIA_LIST medias).
Proof.
  unfold collect. apply related_mfold. intros acc media _.
  apply related_collect_media.
Qed.

(** The part of the notebook that follows the media check. *)
Lemma related_collect_and_download api D1 D2 PROJECT_ID MEDIA_LIST medias :
  flags_ok vis with_files D1 D2 →
  related
    (c ← collect api PROJECT_ID MEDIA_LIST medias; download_and_annotate api D1 c.1)
    (c ← collect api PROJECT_ID MEDIA_LIST medias; download_and_annotate api D2 c.1).
Proof.
  intros Hflags. apply related_bind; [apply related_collect|]. intros c.
  by apply related_download_and_annotate.
Qed.
End Sim.

(** A projection of the log that [vis] does not cut is kept by the filter. *)
Lemma omap_filter_visible {B} (vis : Event → bool) (proj : Event → option B)
    (l : list Event) :
  (∀ ev, is_Some (proj ev) → vis ev = true) →
  omap proj (filter vis l) = omap proj l.
Proof.
  intros Hvis. induction l as [|ev l IH]; [done|].
  rewrite filter_cons. change (omap proj (ev :: l))
    with (match proj ev with Some b => b :: omap proj l | None => omap proj l end).
  destruct (decide (vis ev)) as [Hev|Hev].
  - change (omap proj (ev :: filter vis l))
      with (match proj ev with
            | Some b => b :: omap proj (filter vis l)
            | None => omap proj (filter vis l)
            end).
    by rewrite IH.
  - rewrite IH. destruct (proj ev) as [b|] eqn:Hp; [|done].
    destruct Hev. rewrite Hvis; [done|by eexists].
Qed.

(** ** A run that downloads nothing *)

Global Instance images_untouched_preorder : PreOrder images_untouched.
Proof.
  split.
  - intros w. split; [done|reflexivity].
  - intros w1 w2 w3 [Hf1 He1] [Hf2 He2]. split.
    + intros p Hp. by rewrite Hf2, Hf1.
    + by etrans.
Qed.

Lemma images_untouched_print line : preserves images_untouched (print line).
Proof.
  intros [fs l]. split; [done|].
  by apply (extends_with_emit _ _ fs (mkWorld fs l)).
Qed.

Lemma images_untouched_process_media api e :
  preserves images_untouched (process_media api false e).
Proof.
  intros w. rewrite process_media_run.
  assert (images_untouched w (downloaded api false e w)) as Hd.
  { unfold downloaded. rewrite download_frames_off. destruct w as [fs l].
    split; [done|]. by apply (extends_with_emit _ _ fs (mkWorld fs l)). }
  destruct (rmap (reshape e) (localizations e)) as [locs|ex]; [|done].
  cbn [snd]. etrans; [exact Hd|]. split.
  - intros p Hp. apply files_exported. intros frame _ ->.
    by rewrite PathFacts.xml_path_endswith in Hp.
  - eexists. split; [apply log_exported|].
    apply Forall_fmap, Forall_forall. by intros frame _.
Qed.

Lemma images_untouched_collect api PROJECT_ID MEDIA_LIST medias :
  preserves images_untouched (collect api PROJECT_ID MEDIA_LIST medias).
Proof.
  unfold collect. apply (preserves_mfold images_untouched). intros acc media _.
  unfold collect_media. case_bool_decide; [apply (preserves_ret images_untouched)|].
  apply (preserves_bind images_untouched); [apply images_untouched_print|].
  intros _.
  apply (preserves_bind images_untouched); [apply (preserves_lift images_untouched)|].
  intros c. apply (preserves_ret images_untouched).
Qed.

Lemma images_untouched_checked api PROJECT_ID MEDIA_LIST w :
  images_untouched w (checked api PROJECT_ID MEDIA_LIST w).
Proof.
  split; [done|]. unfold checked. eexists. cbn.
  split; [by rewrite <-(assoc_L (++))|].
  constructor; [done|]. apply Forall_fmap, Forall_forall. by intros media _.
Qed.

Lemma images_untouched_notebook api PROJECT_ID MEDIA_LIST :
  preserves images_untouched (notebook api false PROJECT_ID MEDIA_LIST).
Proof.
  intros w. rewrite notebook_run. etrans; [apply images_untouched_checked|].
  apply (preserves_bind images_untouched); [apply images_untouched_collect|].
  intros c. unfold download_and_annotate.
  apply (preserves_mfor images_untouched). intros e _.
  apply images_untouched_process_media.
Qed.

Lemma omap_no_new {B} (proj : Event → option B) (P : Event → Prop) w w' :
  (∀ ev, P ev → proj ev = None) →
  extends_with P w w' → omap proj (log w') = omap proj (log w).
Proof.
  intros HP (evs & -> & Hevs). rewrite omap_app.
  replace (omap proj evs) with (@nil B); [by rewrite app_nil_r|].
  induction Hevs as [|ev evs Hev _ IH]; [done|].
  change (omap proj (ev :: evs))
    with (match proj ev with Some b => b :: omap proj evs | None => omap proj evs end).
  by rewrite (HP _ Hev).
Qed.

(** ** A requested media that the project does not have *)

Lemma elem_of_prints line evs : line ∈ prints evs ↔ Print line ∈ evs.
Proof.
  unfold prints. rewrite list_elem_of_omap. split.
  - intros (ev & Hev & Heq). destruct ev; simplify_eq. done.
  - intros H. by exists (Print line).
Qed.

Lemma log_grows_collect_and_download api DOWNLOAD PROJECT_ID MEDIA_LIST medias :
  preserves (extends_with (λ _, True))
    (c ← collect api PROJECT_ID MEDIA_LIST medias;
     download_and_annotate api DOWNLOAD c.1).
Proof.
  apply (preserves_bind (extends_with _)).
  - unfold collect. apply (preserves_mfold (extends_with _)). intros acc media _.
    unfold collect_media. case_bool_decide; [apply (preserves_ret (extends_with _))|].
    apply (preserves_bind (extends_with _)); [by apply preserves_print|]. intros _.
    apply (preserves_bind (extends_with _));
      [apply (preserves_lift (extends_with _))|].
    intros c. apply (preserves_ret (extends_with _)).
  - intros c. unfold download_and_annotate.
    apply (preserves_mfor (extends_with _)). intros e _ w.
    eapply extends_with_mono; [|apply process_media_events]. done.
Qed.

Lemma mfold_run_ext {A B} (f1 f2 : A → B → M A) acc l w :
  (∀ a x w, x ∈ l → run (f1 a x) w = run (f2 a x) w) →
  run (mfold f1 acc l) w = run (mfold f2 acc l) w.
Proof.
  revert acc w. induction l as [|x l IH]; intros acc w H; [done|].
  rewrite !mfold_cons, !run_bind, H by left.
  destruct (run (f2 acc x) w) as [[acc'|ex] w']; [|done].
  apply IH. intros a y w'' Hy. apply H. by right.
Qed.

(** A name that no media of the project has can be taken out of the list
    of the requested medias: the collector does the same. *)
Lemma collect_without api PROJECT_ID MEDIA_LIST medias media w :
  media ∉ Media.name <$> medias →
  run (collect api PROJECT_ID (filter (λ m, m ≠ media) MEDIA_LIST) medias) w
  = run (collect api PROJECT_ID MEDIA_LIST medias) w.
Proof.
  intros Hmedia. unfold collect. apply mfold_run_ext. intros acc m w' Hm.
  rewrite !collect_media_run.
  assert (Media.name m ≠ media) as Hne.
  { intros <-. apply Hmedia. by apply list_elem_of_fmap_2. }
  destruct (decide (Media.name m ∈ MEDIA_LIST)) as [Hin|Hin].
  - rewrite decide_True; [done|]. by apply list_elem_of_filter.
  - rewrite decide_False; [done|]. by intros [_ ?]%list_elem_of_filter.
Qed.

(** * The claims *)

(** C1. The conversion of every normalized localization is defined, for a
    media whose width and height are below [2 ^ 64].  Whenever it is
    defined, [xmin] and [ymin] are the truncations of the float products
    [x * W] and [y * H], and [xmax - xmin] and [ymax - ymin] are the
    truncations of [width * W] and [height * H], which are within one of
    the roundings of these products.  Nothing is clamped (a box can leave
    the image) and nothing is validated (a box can be empty). *)
Theorem bbox_conversion :
  (∀ localization W H,
     normalized localization → Z.abs W < 2 ^ 64 → Z.abs H < 2 ^ 64 →
     ∃ b, bbox_of localization W H = Ok b) ∧
  (∀ localization W H b,
     bbox_of localization W H = Ok b →
     ∃ fx fy fw fh rw rh,
       PyFloat.mul_int (Localization.x localization) W = Ok fx ∧
       PyFloat.mul_int (Localization.y localization) H = Ok fy ∧
       PyFloat.mul_int (Localization.width localization) W = Ok fw ∧
       PyFloat.mul_int (Localization.height localization) H = Ok fh ∧
       PyFloat.to_int fx = Ok (xmin b) ∧
       PyFloat.to_int fy = Ok (ymin b) ∧
       PyFloat.to_int fw = Ok (xmax b - xmin b) ∧
       PyFloat.to_int fh = Ok (ymax b - ymin b) ∧
       PyFloat.round fw = Ok rw ∧ Z.abs (xmax b - xmin b - rw) ≤ 1 ∧
       PyFloat.round fh = Ok rh ∧ Z.abs (ymax b - ymin b - rh) ≤ 1) ∧
  bbox_of Sample.wide 100 50 = Ok (mkBBox 90 45 140 70) ∧
  bbox_of Sample.flat 30 30 = Ok (mkBBox 3 3 3 3).
Proof.
  split_and!; [apply bbox_of_normalized| |by vm_compute..].
  intros l W H b (fx & fy & fw & fh & w & h & Hx & Hy & Hw & Hh
                  & Hix & Hiy & Hiw & Hih & Hxm & Hym)%bbox_of_Ok.
  destruct (FloatFacts.to_int_round _ _ Hiw) as (rw & Hrw & Hdw).
  destruct (FloatFacts.to_int_round _ _ Hih) as (rh & Hrh & Hdh).
  exists fx, fy, fw, fh, rw, rh.
  replace (xmax b - xmin b) with w by lia.
  replace (ymax b - ymin b) with h by lia. done.
Qed.

Lemma bbox_conversion_witness :
  (∃ b, bbox_of Sample.fish 100 50 = Ok b) ∧
  ∃ fx fy fw fh rw rh,
    PyFloat.mul_int (Localization.x Sample.fish) 100 = Ok fx ∧
    PyFloat.mul_int (Localization.y Sample.fish) 50 = Ok fy ∧
    PyFloat.mul_int (Localization.width Sample.fish) 100 = Ok fw ∧
    PyFloat.mul_int (Localization.height Sample.fish) 50 = Ok fh ∧
    PyFloat.to_int fx = Ok 50 ∧
    PyFloat.to_int fy = Ok 12 ∧
    PyFloat.to_int fw = Ok (100 - 50) ∧
    PyFloat.to_int fh = Ok (37 - 12) ∧
    PyFloat.round fw = Ok rw ∧ Z.abs (100 - 50 - rw) ≤ 1 ∧
    PyFloat.round fh = Ok rh ∧ Z.abs (37 - 12 - rh) ≤ 1.
Proof.
  split.
  - apply (proj1 bbox_conversion Sample.fish 100 50); [|done..].
    unfold normalized. simpl. lia.
  - apply (proj1 (proj2 bbox_conversion) Sample.fish 100 50 (mkBBox 50 12 100 37)).
    vm_compute. reflexivity.
Defined.

(** C2 (the code departs from it). A localization of a track that exposes
    the class attribute is not kept: the loop through the tracks tests the
    key ["ScientifcName"], and the list and the lookup stay empty; the same
    localization in the other list is kept.  A localization of a track that
    has the tested key without the class key ends the run with a
    [KeyError]. *)
Theorem track_localization_dropped :
  has_class Sample.fish ∧
  collect_localizations [] [Track.mk [Sample.fish]] []
    = Ok (mkCollected ∅ [] []) ∧
  collect_localizations [] [] [Sample.fish]
    = Ok (mkCollected {[ 1 := "Fish" ]} [Sample.fish] ["Fish"]) ∧
  collect_localizations [] [Track.mk [Sample.eel]] []
    = Raise (KeyError "ScientificName").
Proof.
  split_and!.
  - by eexists.
  - by vm_compute.
  - by vm_compute.
  - by vm_compute.
Qed.

(** C3. In a well-formed media entry, a localization whose id has no entry
    in the lookup gets the label ["Unknown"]: the annotation saved for its
    frame, which is the file at the path of the frame, has an object with
    this name and the box of the localization. *)
Theorem unknown_class_label api DOWNLOAD e w l :
  well_formed e →
  l ∈ localizations e →
  loc_id_to_class e !! Localization.id l = None →
  ∃ doc b,
    bbox_of l (media_width e) (media_height e) = Ok b ∧
    (xml_path (media_name e) (Localization.frame l), doc)
      ∈ saves (log (run (process_media api DOWNLOAD e) w).2) ∧
    files (run (process_media api DOWNLOAD e) w).2
      !! xml_path (media_name e) (Localization.frame l) = Some (Xml doc) ∧
    Writer.mk_object "Unknown" (xmin b) (ymin b) (xmax b) (ymax b)
      ∈ Writer.objects doc.
Proof.
  intros [locs Hlocs]%reshape_well_formed.
  by apply (unknown_label_of_reshaped api DOWNLOAD e w locs).
Qed.

Lemma unknown_class_label_witness :
  ∃ doc b,
    bbox_of Sample.fish (media_width Sample.entry) (media_height Sample.entry) = Ok b ∧
    (xml_path (media_name Sample.entry) (Localization.frame Sample.fish), doc)
      ∈ saves (log (run (process_media Sample.api false Sample.entry) Sample.empty).2) ∧
    files (run (process_media Sample.api false Sample.entry) Sample.empty).2
      !! xml_path (media_name Sample.entry) (Localization.frame Sample.fish)
      = Some (Xml doc) ∧
    Writer.mk_object "Unknown" (xmin b) (ymin b) (xmax b) (ymax b)
      ∈ Writer.objects doc.
Proof.
  apply (unknown_class_label Sample.api false Sample.entry Sample.empty).
  - unfold well_formed, normalized. simpl. repeat constructor; simpl; lia.
  - left.
  - vm_compute. reflexivity.
Defined.





(** C7. A requested media that is not among the medias of the project is
    reported by the media check, which does not raise; it changes nothing
    else: the run ends as the run that does not request it ends, with the
    same files, and with the same fetches, moves and saves in its log. *)
Theorem media_not_found api DOWNLOAD PROJECT_ID MEDIA_LIST media w :
  media ∈ MEDIA_LIST →
  media ∉ Media.name <$> get_media_list api PROJECT_ID →
  let requested := run (notebook api DOWNLOAD PROJECT_ID MEDIA_LIST) w in
  let others :=
    run (notebook api DOWNLOAD PROJECT_ID (filter (λ m, m ≠ media) MEDIA_LIST)) w in
  ("This media WASN'T found: " +:+ media) ∈ prints (log requested.2) ∧
  (∀ w0, (run (check_medias MEDIA_LIST (get_media_list api PROJECT_ID)) w0).1 = Ok ()) ∧
  requested.1 = others.1 ∧
  files requested.2 = files others.2 ∧
  fetches (log requested.2) = fetches (log others.2) ∧
  moves (log requested.2) = moves (log others.2) ∧
  saves (log requested.2) = saves (log others.2).
Proof.
  intros Hin Hout requested others.
  set (medias := get_media_list api PROJECT_ID) in *.
  set (vis := λ ev, negb (is_print ev)).
  pose proof (notebook_run api DOWNLOAD PROJECT_ID MEDIA_LIST w) as Hreq.
  pose proof (notebook_run api DOWNLOAD PROJECT_ID
                (filter (λ m, m ≠ media) MEDIA_LIST) w) as Hoth.
  fold requested in Hreq. fold others in Hoth. fold medias in Hreq, Hoth.
  rewrite run_bind, collect_without, <-run_bind in Hoth by done.
  assert (sim vis true (checked api PROJECT_ID MEDIA_LIST w)
            (checked api PROJECT_ID (filter (λ m, m ≠ media) MEDIA_LIST) w))
    as Hsim.
  { split; [|done]. unfold checked. cbn [log].
    assert (∀ names l, filter vis (check_message names <$> l) = []) as Hnil.
    { intros names l. induction l as [|x l IH]; [done|].
      rewrite fmap_cons, filter_cons. by rewrite decide_False by (by intros ?). }
    by rewrite !filter_app, !Hnil. }
  destruct (related_collect_and_download vis true api DOWNLOAD DOWNLOAD
              PROJECT_ID MEDIA_LIST medias (or_introl (conj eq_refl eq_refl))
              _ _ Hsim) as [Hr [Hl Hf]].
  rewrite <-Hreq, <-Hoth in Hr, Hl, Hf.
  split_and!.
  - apply elem_of_prints.
    destruct (log_grows_collect_and_download api DOWNLOAD PROJECT_ID MEDIA_LIST
                medias (checked api PROJECT_ID MEDIA_LIST w)) as (evs & Hevs & _).
    rewrite <-Hreq in Hevs. rewrite Hevs. apply elem_of_app. left.
    unfold checked. cbn [log]. apply elem_of_app. right.
    apply list_elem_of_fmap. exists media. split; [|done].
    unfold check_message. fold medias. by rewrite bool_decide_eq_false_2.
  - intros w0. by rewrite check_medias_run.
  - done.
  - by apply Hf.
  - unfold fetches.
    rewrite <-(omap_filter_visible vis _ (log requested.2)),
      <-(omap_filter_visible vis _ (log others.2)), Hl;
      [done|intros [] [? ?]; done..].
  - unfold moves.
    rewrite <-(omap_filter_visible vis _ (log requested.2)),
      <-(omap_filter_visible vis _ (log others.2)), Hl;
      [done|intros [] [? ?]; done..].
  - unfold saves.
    rewrite <-(omap_filter_visible vis _ (log requested.2)),
      <-(omap_filter_visible vis _ (log others.2)), Hl;
      [done|intros [] [? ?]; done..].
Qed.

Lemma media_not_found_witness :
  let requested := run (notebook Sample.api true 70 ["dive:1.mov"; "A.mov"]) Sample.empty in
  let others :=
    run (notebook Sample.api true 70
           (filter (λ m, m ≠ "A.mov") ["dive:1.mov"; "A.mov"])) Sample.empty in
  ("This media WASN'T found: " +:+ "A.mov") ∈ prints (log requested.2) ∧
  (∀ w0, (run (check_medias ["dive:1.mov"; "A.mov"]
                 (get_media_list Sample.api 70)) w0).1 = Ok ()) ∧
  requested.1 = others.1 ∧
  files requested.2 = files others.2 ∧
  fetches (log requested.2) = fetches (log others.2) ∧
  moves (log requested.2) = moves (log others.2) ∧
  saves (log requested.2) = saves (log others.2).
Proof.
  apply (media_not_found Sample.api true 70 ["dive:1.mov"; "A.mov"] "A.mov").
  - right. left.
  - vm_compute. intros [Heq|Hnil]%elem_of_cons; [done|by apply elem_of_nil in Hnil].
Defined.



(** C9. A localization that is in a track and in the list of standalone
    localizations, and passes the test of both loops, is twice in the list
    of the media; in the well-formed entry of the media, the annotation
    saved for its frame has its object twice. *)
Theorem no_deduplication ALL_CLASSES_LIST tracks standalone c l :
  collect_localizations ALL_CLASSES_LIST tracks standalone = Ok c →
  l ∈ track_localizations tracks →
  l ∈ standalone →
  track_key l →
  has_class l →
  twice l (c_media_localizations c) ∧
  ∀ api DOWNLOAD name id W H w,
    let e := mkEntry name id W H (c_media_localizations c) (c_loc_id_to_class c) in
    well_formed e →
    ∃ doc loc,
      reshape e l = Ok loc ∧
      (xml_path name (Localization.frame l), doc)
        ∈ saves (log (run (process_media api DOWNLOAD e) w).2) ∧
      twice (object_of_loc loc) (Writer.objects doc).
Proof.
  rewrite collect_localizations_run. case_decide as Hok; [|done].
  intros [= <-] Ht Hs Hk Hc.
  set (c := kept _ _).
  assert (twice l (c_media_localizations c)) as Htwice.
  { unfold c. rewrite kept_media_localizations. cbn [c_media_localizations app].
    unfold kept_localizations. apply twice_app; by apply list_elem_of_filter. }
  split; [done|].
  intros api DOWNLOAD name id W H w e [locs Hlocs]%reshape_well_formed.
  set (frame := Localization.frame l).
  pose proof (on_frame_reshaped _ _ _ frame Hlocs) as H2.
  assert (∀ y z, reshape e l = Ok y → reshape e l = Ok z → y = z) as Hfun
    by congruence.
  destruct (twice_Forall2 _ l _ _ Hfun H2) as (loc & Hloc & Hobj).
  { by apply twice_filter. }
  exists (frame_doc e locs frame), loc.
  destruct (process_media_saves api DOWNLOAD e w locs Hlocs) as [_ Hsv].
  split_and!; [done| |].
  - rewrite Hsv. apply elem_of_app. right. apply (elem_of_media_saves e).
    apply elem_of_frames_w_localizations. exists l. split; [|done].
    destruct Htwice as (l1 & l2 & l3 & Heq). simpl. rewrite Heq.
    apply elem_of_app. right. left.
  - unfold frame_doc. rewrite objects_annotation. by apply twice_fmap.
Qed.

Lemma no_deduplication_witness :
  twice Sample.crab (c_media_localizations Sample.collected) ∧
  ∀ api DOWNLOAD name id W H w,
    let e := mkEntry name id W H (c_media_localizations Sample.collected)
               (c_loc_id_to_class Sample.collected) in
    well_formed e →
    ∃ doc loc,
      reshape e Sample.crab = Ok loc ∧
      (xml_path name (Localization.frame Sample.crab), doc)
        ∈ saves (log (run (process_media api DOWNLOAD e) w).2) ∧
      twice (object_of_loc loc) (Writer.objects doc).
Proof.
  apply (no_deduplication [] [Track.mk [Sample.crab]] [Sample.fish; Sample.crab]).
  - vm_compute. reflexivity.
  - left.
  - right. left.
  - by eexists.
  - by eexists.
Defined.

(** C10. A localization that the loop through the standalone localizations
    keeps is in the list of the media and its id has an entry in the
    lookup; the reshaper reads its class there, so the ["Unknown"] branch
    is not taken for it. *)
Theorem standalone_lookup_entry ALL_CLASSES_LIST tracks localizations c l :
  collect_localizations ALL_CLASSES_LIST tracks localizations = Ok c →
  l ∈ localizations →
  has_class l →
  l ∈ c_media_localizations c ∧
  ∃ cls,
    c_loc_id_to_class c !! Localization.id l = Some cls ∧
    getitem pretty (c_loc_id_to_class c) (Localization.id l) = Ok cls ∧
    ∀ name id W H loc,
      reshape (mkEntry name id W H (c_media_localizations c) (c_loc_id_to_class c)) l
        = Ok loc →
      class_category loc = cls.
Proof.
  rewrite collect_localizations_run. case_decide as Hok; [|done].
  intros [= <-] Hl Hc.
  assert (l ∈ kept_localizations tracks localizations) as Hin.
  { unfold kept_localizations. apply elem_of_app. right.
    by apply list_elem_of_filter. }
  split.
  - rewrite kept_media_localizations. by apply elem_of_app; right.
  - destruct (kept_lookup_is_Some (mkCollected ∅ [] ALL_CLASSES_LIST) _ _ Hin)
      as [cls Hcls].
    exists cls. split_and!; [done|by unfold getitem; rewrite Hcls|].
    intros name id W H loc (_ & _ & _ & ->)%reshape_Ok. simpl. by rewrite Hcls.
Qed.

Lemma standalone_lookup_entry_witness :
  Sample.fish ∈ c_media_localizations
                  (mkCollected {[ 1 := "Fish" ]} [Sample.fish] ["Fish"]) ∧
  ∃ cls,
    c_loc_id_to_class (mkCollected {[ 1 := "Fish" ]} [Sample.fish] ["Fish"])
      !! Localization.id Sample.fish = Some cls ∧
    getitem pretty
      (c_loc_id_to_class (mkCollected {[ 1 := "Fish" ]} [Sample.fish] ["Fish"]))
      (Localization.id Sample.fish) = Ok cls ∧
    ∀ name id W H loc,
      reshape (mkEntry name id W H
                 (c_media_localizations
                    (mkCollected {[ 1 := "Fish" ]} [Sample.fish] ["Fish"]))
                 (c_loc_id_to_class
                    (mkCollected {[ 1 := "Fish" ]} [Sample.fish] ["Fish"])))
              Sample.fish = Ok loc →
      class_category loc = cls.
Proof.
  apply (standalone_lookup_entry [] [] [Sample.fish]).
  - by vm_compute.
  - by left.
  - by eexists.
Defined.

(** * Further properties *)

(** ** The collector, media after media *)

Lemma kept_loc_id_to_class acc ls :
  c_loc_id_to_class (kept acc ls)
  = foldl (λ d l, <[Localization.id l := class_of l]> d) (c_loc_id_to_class acc) ls.
Proof.
  revert acc. induction ls as [|l ls IH]; intros acc; [done|].
  change (kept acc (l :: ls)) with (kept (kept acc [l]) ls). by rewrite IH.
Qed.

Lemma collect_media_step api PROJECT_ID MEDIA_LIST acc media w :
  run (collect_media api PROJECT_ID MEDIA_LIST acc media) w =
    if decide (Media.name media ∈ MEDIA_LIST) then
      if decide (tracks_ok api PROJECT_ID media)
      then (Ok (acc.1 ++ [collected_entry api PROJECT_ID media],
                acc.2 ++ (class_of <$> localizations (collected_entry api PROJECT_ID media))),
            emit (collecting_message media) w)
      else (Raise (KeyError "ScientificName"), emit (collecting_message media) w)
    else (Ok acc, w).
Proof.
  rewrite collect_media_run. case_decide; [|done]. cbv zeta.
  rewrite collect_localizations_run. unfold tracks_ok. case_decide; [|done].
  unfold entry_of, collected_entry.
  by rewrite kept_ALL_CLASSES_LIST, kept_media_localizations, kept_loc_id_to_class.
Qed.

Lemma selected_cons MEDIA_LIST media medias :
  selected MEDIA_LIST (media :: medias)
  = if decide (Media.name media ∈ MEDIA_LIST)
    then media :: selected MEDIA_LIST medias
    else selected MEDIA_LIST medias.
Proof. unfold selected. by rewrite filter_cons. Qed.

(** The collector from any accumulator, when it ends normally. *)
Lemma mfold_collect_media_Ok api PROJECT_ID MEDIA_LIST medias acc w r w' :
  run (mfold (collect_media api PROJECT_ID MEDIA_LIST) acc medias) w = (Ok r, w') →
  let new := collected_entry api PROJECT_ID <$> selected MEDIA_LIST medias in
  r.1 = acc.1 ++ new ∧
  r.2 = acc.2 ++ (class_of <$> concat (localizations <$> new)) ∧
  w' = mkWorld (files w) (log w ++ (collecting_message <$> selected MEDIA_LIST medias)) ∧
  Forall (tracks_ok api PROJECT_ID) (selected MEDIA_LIST medias).
Proof.
  revert acc w. induction medias as [|media medias IH]; intros acc w.
  - cbn. intros [= <- <-]. rewrite !app_nil_r. by destruct w.
  - rewrite mfold_cons, run_bind, collect_media_step, selected_cons.
    case_decide as Hsel; [case_decide as Hok|].
    + intros (Hes & Hall & -> & Hoks)%IH. cbn [fst snd] in Hes, Hall.
      cbv zeta. rewrite !fmap_cons, concat_cons, fmap_app.
      rewrite Hes, Hall, <-!(assoc_L (++)). cbn.
      rewrite <-!(assoc_L (++)). by repeat split; [..|constructor].
    + done.
    + apply IH.
Qed.

(** The collector from any accumulator, when it raises. *)
Lemma mfold_collect_media_Raise api PROJECT_ID MEDIA_LIST medias acc w ex w' :
  run (mfold (collect_media api PROJECT_ID MEDIA_LIST) acc medias) w = (Raise ex, w') →
  ex = KeyError "ScientificName" ∧
  ¬ Forall (tracks_ok api PROJECT_ID) (selected MEDIA_LIST medias) ∧
  files w' = files w ∧ extends_with (λ ev, is_print ev = true) w w'.
Proof.
  revert acc w. induction medias as [|media medias IH]; intros acc w; [done|].
  rewrite mfold_cons, run_bind, collect_media_step, selected_cons.
  case_decide as Hsel; [case_decide as Hok|].
  - intros (-> & Hbad & Hf & He)%IH. repeat split; [|done|].
    + by intros [_ ?]%Forall_cons.
    + etrans; [|exact He]. destruct w as [fs l].
      by apply (extends_with_emit _ _ fs (mkWorld fs l)).
  - intros [= <- <-]. repeat split; [|].
    + by intros [? _]%Forall_cons.
    + destruct w as [fs l]. by apply (extends_with_emit _ _ fs (mkWorld fs l)).
  - apply IH.
Qed.

(** X1. The two loops of the collector over one media end normally exactly
    when every localization of a track that has the key ["ScientifcName"]
    also has the key ["ScientificName"]; the only exception they raise is
    [KeyError "ScientificName"].  When they end, the list of the media is
    the track localizations that have the first key, in the order of the
    tracks, followed by the standalone localizations that have the second
    key, and the global list has grown by the classes of this list, in
    order. *)
Theorem collector_outcome ALL_CLASSES_LIST tracks localizations :
  let r := collect_localizations ALL_CLASSES_LIST tracks localizations in
  (is_Ok r ↔
     ∀ l, l ∈ track_localizations tracks → track_key l → has_class l) ∧
  (∀ ex, r = Raise ex → ex = KeyError "ScientificName") ∧
  (∀ c, r = Ok c →
     c_media_localizations c
       = filter track_key (track_localizations tracks)
         ++ filter has_class localizations ∧
     c_ALL_CLASSES_LIST c
       = ALL_CLASSES_LIST ++ (class_of <$> c_media_localizations c) ∧
     Forall has_class (c_media_localizations c)).
Proof.
  cbv zeta. rewrite collect_localizations_run. case_decide as Hok.
  - split_and!.
    + split; [|by eexists]. intros _. exact (proj1 (Forall_forall _ _) Hok).
    + done.
    + intros c [= <-].
      rewrite kept_ALL_CLASSES_LIST, kept_media_localizations. cbn [app].
      split_and!; [done..|].
      cbn. apply Forall_app. split; apply Forall_forall.
      * intros l [Hk Hl]%list_elem_of_filter.
        by apply (proj1 (Forall_forall _ _) Hok).
      * by intros l [Hc _]%list_elem_of_filter.
  - split_and!.
    + split; [by intros [c ?]|]. intros H. destruct Hok.
      exact (proj2 (Forall_forall _ _) H).
    + by intros ex [= <-].
    + done.
Qed.

(** X2. When the loops of a media end, the dict gives the id of every
    localization of the list the class of the last localization of the
    list that has this id: the object that the export writes for a
    localization carries that class, which is another localization's when
    two of them share an id. *)
Theorem lookup_is_last_class ALL_CLASSES_LIST tracks standalone c l :
  collect_localizations ALL_CLASSES_LIST tracks standalone = Ok c →
  l ∈ c_media_localizations c →
  ∃ l',
    last (filter (λ k, Localization.id k = Localization.id l)
            (c_media_localizations c)) = Some l' ∧
    Localization.attributes l' !! "ScientificName"
      = c_loc_id_to_class c !! Localization.id l ∧
    ∀ media loc,
      reshape (entry_of media c) l = Ok loc →
      Localization.attributes l' !! "ScientificName" = Some (class_category loc).
Proof.
  rewrite collect_localizations_run. case_decide as Hok; [|done].
  intros [= <-]. rewrite kept_media_localizations. cbn [c_media_localizations app].
  intros Hl.
  destruct (last (filter (λ k, Localization.id k = Localization.id l)
                    (kept_localizations tracks standalone))) as [l'|] eqn:Hlast.
  - assert (has_class l') as [cl Hcl].
    { apply last_Some_elem_of in Hlast.
      apply list_elem_of_filter in Hlast as [_ Hin].
      apply elem_of_app in Hin as [[Hk Hin]%list_elem_of_filter
                                  |[Hc _]%list_elem_of_filter]; [|done].
      by apply (proj1 (Forall_forall _ _) Hok). }
    assert (c_loc_id_to_class
              (kept (mkCollected ∅ [] ALL_CLASSES_LIST)
                 (kept_localizations tracks standalone)) !! Localization.id l
            = Some cl) as Hlk.
    { rewrite kept_lookup, Hlast. unfold class_of. by rewrite Hcl. }
    exists l'. split_and!; [done|by rewrite Hlk|].
    intros media loc (_ & _ & _ & Hclass)%reshape_Ok.
    rewrite Hclass. cbn [entry_of loc_id_to_class]. by rewrite Hlk, Hcl.
  - apply last_None in Hlast.
    assert (l ∈ filter (λ k, Localization.id k = Localization.id l)
                  (kept_localizations tracks standalone)) as Hin
      by by apply list_elem_of_filter.
    rewrite Hlast in Hin. by apply elem_of_nil in Hin.
Qed.

Lemma lookup_is_last_class_witness :
  ∃ l',
    last (filter (λ k, Localization.id k = Localization.id Sample.crab)
            (c_media_localizations Sample.relabelled)) = Some l' ∧
    Localization.attributes l' !! "ScientificName"
      = c_loc_id_to_class Sample.relabelled !! Localization.id Sample.crab ∧
    ∀ media loc,
      reshape (entry_of media Sample.relabelled) Sample.crab = Ok loc →
      Localization.attributes l' !! "ScientificName" = Some (class_category loc).
Proof.
  apply (lookup_is_last_class [] [Track.mk [Sample.crab]] [Sample.lobster]).
  - vm_compute. reflexivity.
  - left.
Defined.

(** X3. The loop through the medias appends to the two lists it is given:
    whatever [media_w_localizations] and [ALL_CLASSES_LIST] hold when the
    cell starts is kept in front, the new entries follow, and the global
    list grows by the classes of the localizations of the new entries, one
    for each localization, in the order of the entries. *)
Theorem all_classes_accumulate api PROJECT_ID MEDIA_LIST medias
    media_w_localizations ALL_CLASSES_LIST w entries classes w' :
  run (mfold (collect_media api PROJECT_ID MEDIA_LIST)
         (media_w_localizations, ALL_CLASSES_LIST) medias) w
    = (Ok (entries, classes), w') →
  ∃ new,
    entries = media_w_localizations ++ new ∧
    classes = ALL_CLASSES_LIST ++ (class_of <$> concat (localizations <$> new)) ∧
    Forall (λ e, Forall has_class (localizations e)) new.
Proof.
  intros (Hes & Hall & _ & Hok)%mfold_collect_media_Ok. cbn [fst snd] in Hes, Hall.
  eexists. split_and!; [done..|].
  apply Forall_fmap, Forall_forall. intros media Hm. cbn.
  apply (proj1 (Forall_forall _ _) Hok) in Hm.
  apply Forall_app. split; apply Forall_forall.
  - intros l [Hk Hl]%list_elem_of_filter.
    by apply (proj1 (Forall_forall _ _) Hm).
  - by intros l [Hc _]%list_elem_of_filter.
Qed.

Lemma all_classes_accumulate_witness :
  ∃ new,
    Sample.entries ++ Sample.entries = Sample.entries ++ new ∧
    ["Eel"; "Crab"; "Fish"; "Crab"]
      = ["Eel"] ++ (class_of <$> concat (localizations <$> new)) ∧
    Forall (λ e, Forall has_class (localizations e)) new.
Proof.
  apply (all_classes_accumulate Sample.api 70 ["dive:1.mov"] [Sample.video]
           Sample.entries ["Eel"] Sample.empty _ _ Sample.collecting).
  vm_compute. reflexivity.
Defined.

(** X4. When the collector ends normally, [media_w_localizations] has one
    entry for each media of the project whose name is in [MEDIA_LIST], in
    the order of the project: the order of [MEDIA_LIST] and a name that is
    requested twice change nothing, and two medias of the project with the
    same requested name give two entries.  The entry has the id, the width
    and the height of the media, its name with every [:] replaced, and the
    localizations that the two loops keep. *)
Theorem entries_follow_project api PROJECT_ID MEDIA_LIST medias w entries classes w' :
  run (collect api PROJECT_ID MEDIA_LIST medias) w = (Ok (entries, classes), w') →
  Forall2
    (λ media e,
       media_name e = Str.replace ":" "_" (Media.name media) ∧
       media_id e = Media.id media ∧
       media_width e = Media.width media ∧
       media_height e = Media.height media ∧
       localizations e
         = kept_localizations (get_state_list api PROJECT_ID [Media.id media])
             (get_localization_list api PROJECT_ID [Media.id media]))
    (filter (λ media, Media.name media ∈ MEDIA_LIST) medias) entries.
Proof.
  intros (Hes & _)%mfold_collect_media_Ok. cbn [fst snd app] in Hes. subst entries.
  apply Forall2_fmap_r, Forall_Forall2_diag, Forall_forall. by intros media _.
Qed.

Lemma entries_follow_project_witness :
  Forall2
    (λ media e,
       media_name e = Str.replace ":" "_" (Media.name media) ∧
       media_id e = Media.id media ∧
       media_width e = Media.width media ∧
       media_height e = Media.height media ∧
       localizations e
         = kept_localizations (get_state_list Sample.api 70 [Media.id media])
             (get_localization_list Sample.api 70 [Media.id media]))
    (filter (λ media, Media.name media ∈ ["dive:1.mov"; "dive:1.mov"])
       [Sample.video])
    Sample.entries.
Proof.
  apply (entries_follow_project Sample.api 70 ["dive:1.mov"; "dive:1.mov"]
           [Sample.video] Sample.empty _ ["Crab"; "Fish"; "Crab"] Sample.collecting).
  vm_compute. reflexivity.
Defined.

(** X5. After a collector that ended normally, the cell that shows
    [media_w_localizations[0][4][0]] raises [IndexError] when no media of
    the project has a requested name, and when the first such media, in the
    order of the project, has no localization that the loops keep;
    otherwise it shows the first localization kept for that media, a
    localization of a track when one is kept. *)
Theorem first_localization_of_collected api PROJECT_ID MEDIA_LIST medias
    w entries classes w' :
  run (collect api PROJECT_ID MEDIA_LIST medias) w = (Ok (entries, classes), w') →
  first_localization entries =
    match filter (λ media, Media.name media ∈ MEDIA_LIST) medias with
    | [] => Raise IndexError
    | media :: _ =>
        match filter track_key
                (track_localizations (get_state_list api PROJECT_ID [Media.id media]))
              ++ filter has_class
                   (get_localization_list api PROJECT_ID [Media.id media]) with
        | [] => Raise IndexError
        | l :: _ => Ok l
        end
    end.
Proof.
  intros (Hes & _)%mfold_collect_media_Ok. cbn [fst snd app] in Hes. subst entries.
  unfold selected. destruct (filter _ medias) as [|media rest]; [done|].
  cbn. unfold kept_localizations. by destruct (_ ++ _).
Qed.

Lemma first_localization_of_collected_witness :
  first_localization [] =
    match filter (λ media, Media.name media ∈ ["A.mov"]) [Sample.video] with
    | [] => Raise IndexError
    | media :: _ =>
        match filter track_key
                (track_localizations (get_state_list Sample.api 70 [Media.id media]))
              ++ filter has_class
                   (get_localization_list Sample.api 70 [Media.id media]) with
        | [] => Raise IndexError
        | l :: _ => Ok l
        end
    end.
Proof.
  apply (first_localization_of_collected Sample.api 70 ["A.mov"] [Sample.video]
           Sample.empty [] [] Sample.empty).
  vm_compute. reflexivity.
Defined.

(** ** Names and paths *)

Lemma replace_colon_cons a s :
  Str.replace ":" "_" (String a s)
  = String (if decide (a = ":"%char) then "_"%char else a) (Str.replace ":" "_" s).
Proof.
  unfold Str.replace. cbn [Str.replace_go Str.startswith].
  destruct (decide (":"%char = a)) as [<-|Hne].
  - rewrite decide_True by done. destruct s; reflexivity.
  - by rewrite decide_False by done.
Qed.

Lemma pretty_N_go_no_underscore x s :
  Str.contains "_" s = false → Str.contains "_" (pretty_N_go x s) = false.
Proof.
  revert s. induction (N.lt_wf_0 x) as [x _ IH]; intros s Hs.
  destruct (decide (x = 0%N)) as [->|Hx]; [by rewrite pretty_N_go_0|].
  rewrite pretty_N_go_step by lia. apply IH.
  { apply N.div_lt; lia. }
  unfold pretty_N_char. simpl. repeat case_match; by case_decide.
Qed.

Lemma pretty_Z_no_underscore (n : Z) : Str.contains "_" (pretty n) = false.
Proof.
  assert (∀ p : positive, Str.contains "_" (pretty p) = false) as Hpos.
  { intros p. unfold pretty, pretty_positive, pretty, pretty_N.
    case_decide; [done|]. by apply pretty_N_go_no_underscore. }
  destruct n as [|p|p]; unfold pretty, pretty_Z; [done|apply Hpos|].
  rewrite StrFacts.app_cons, StrFacts.app_nil_l. simpl.
  first [apply Hpos | case_decide; [done|apply Hpos]].
Qed.

(** A string is cut in one way at its last underscore. *)
Lemma last_underscore_inj s1 s2 d1 d2 :
  Str.contains "_" d1 = false → Str.contains "_" d2 = false →
  s1 +:+ String "_" d1 = s2 +:+ String "_" d2 → s1 = s2 ∧ d1 = d2.
Proof.
  intros H1 H2. revert s2. induction s1 as [|a s1 IH]; intros [|b s2].
  - rewrite !StrFacts.app_nil_l. by intros [= ->].
  - rewrite StrFacts.app_nil_l, StrFacts.app_cons. intros [= <- ->].
    rewrite StrFacts.contains_app in H1. simpl in H1.
    by rewrite orb_true_r in H1.
  - rewrite StrFacts.app_nil_l, StrFacts.app_cons. intros [= -> <-].
    rewrite StrFacts.contains_app in H2. simpl in H2.
    by rewrite orb_true_r in H2.
  - rewrite !StrFacts.app_cons. intros [= -> [-> ->]%IH]. done.
Qed.

Lemma frame_suffix_inj2 s1 s2 (f1 f2 : Z) ext :
  Str.contains "_" ext = false →
  s1 +:+ "_" +:+ pretty f1 +:+ ext = s2 +:+ "_" +:+ pretty f2 +:+ ext →
  s1 = s2 ∧ f1 = f2.
Proof.
  intros Hext H.
  change ("_" +:+ pretty f1 +:+ ext) with (String "_" (pretty f1 +:+ ext)) in H.
  change ("_" +:+ pretty f2 +:+ ext) with (String "_" (pretty f2 +:+ ext)) in H.
  apply last_underscore_inj in H as [-> H];
    [|by rewrite StrFacts.contains_app, pretty_Z_no_underscore, Hext..].
  apply StrFacts.app_inj_suffix in H as [H _]; [|done].
  split; [done|]. by apply (inj pretty).
Qed.

(** X6. [str.replace(":", "_")], as the collector applies it to the name of
    a media, changes each colon to an underscore and nothing else: the
    result has no colon and the length of the name, a name without a colon
    is unchanged, and replacing again changes nothing. *)
Theorem replace_colon s :
  let r := Str.replace ":" "_" s in
  (∀ i, String.get i r
        = (λ a, if decide (a = ":"%char) then "_"%char else a) <$> String.get i s) ∧
  Str.contains ":" r = false ∧
  String.length r = String.length s ∧
  (Str.contains ":" s = false → r = s) ∧
  Str.replace ":" "_" r = r.
Proof.
  cbv zeta. induction s as [|a s (IH1 & IH2 & IH3 & IH4 & IH5)].
  - by split_and!.
  - rewrite replace_colon_cons. split_and!.
    + intros [|i]; [done|]. apply IH1.
    + simpl. destruct (decide (a = ":"%char)) as [->|Hne]; by rewrite decide_False.
    + simpl. by rewrite IH3.
    + simpl. destruct (decide (a = ":"%char)) as [->|Hne]; [done|].
      intros Hs. by rewrite (IH4 Hs).
    + rewrite replace_colon_cons, IH5.
      destruct (decide (a = ":"%char)) as [->|Hne]; [done|].
      by rewrite decide_False.
Qed.

(** X7. The files of two frames are the same file exactly in these cases:
    the image paths are equal when the frames are equal and the two media
    names are equal up to their first dot; the annotation paths are equal
    when the frames are equal and what follows the last slash of the names
    cut at their first dot is equal.  So two medias such as [a.1.mov] and
    [a.2.mov] share their files, frame for frame. *)
Theorem paths_collide (n1 n2 : string) (f1 f2 : Z) :
  let image n (f : Z) :=
    IMAGE_DIR +:+ (Str.split "." n).1 +:+ "_" +:+ pretty f +:+ ".jpg" in
  let xml n f :=
    LABEL_DIR +:+ Str.replace ".jpg" ".xml" (Str.basename (image n f)) in
  (image n1 f1 = image n2 f2 ↔
     (Str.split "." n1).1 = (Str.split "." n2).1 ∧ f1 = f2) ∧
  (xml n1 f1 = xml n2 f2 ↔
     Str.basename (Str.split "." n1).1 = Str.basename (Str.split "." n2).1 ∧
     f1 = f2).
Proof.
  cbv zeta. split.
  - split; [|by intros [-> ->]].
    intros H. apply (inj (String.app _)) in H. by apply frame_suffix_inj2 in H.
  - change (IMAGE_DIR +:+ (Str.split "." n1).1 +:+ "_" +:+ pretty f1 +:+ ".jpg")
      with (image_path n1 f1).
    change (IMAGE_DIR +:+ (Str.split "." n2).1 +:+ "_" +:+ pretty f2 +:+ ".jpg")
      with (image_path n2 f2).
    rewrite !PathFacts.xml_path_of_image_path. unfold xml_path, stem.
    split; [|by intros [-> ->]].
    intros H. apply (inj (String.app _)) in H. by apply frame_suffix_inj2 in H.
Qed.

(** ** Grouping by frame *)

Lemma sum_list_fmap_add {A} (f g : A → nat) (l : list A) :
  sum_list ((λ x, f x + g x)%nat <$> l)
  = (sum_list (f <$> l) + sum_list (g <$> l))%nat.
Proof. induction l as [|x l IH]; [done|]. cbn. rewrite IH. lia. Qed.

(** A key of a duplicate-free list is counted once. *)
Lemma sum_list_indicator (k : Z) (ks : list Z) :
  NoDup ks → k ∈ ks →
  sum_list ((λ k', if decide (k = k') then 1 else 0)%nat <$> ks) = 1%nat.
Proof.
  induction 1 as [|k0 ks Hk0 Hnd IH]; [by intros ?%elem_of_nil|].
  cbn. intros [->|Hin]%elem_of_cons.
  - rewrite decide_True by done.
    rewrite (sum_list_fmap_same 0%nat); [lia|].
    apply Forall_forall. intros k' Hk'. rewrite decide_False; [done|].
    by intros ->.
  - rewrite decide_False by (by intros ->). by rewrite IH.
Qed.

(** The classes of a list by a key have, together, the length of the list. *)
Lemma sum_list_filter_key {A} (g : A → Z) (l : list A) (ks : list Z) :
  NoDup ks → (∀ x, x ∈ l → g x ∈ ks) →
  sum_list ((λ k, length (filter (λ x, g x = k) l)) <$> ks) = length l.
Proof.
  intros Hnd. induction l as [|x l IH]; intros Hks.
  - by rewrite (sum_list_fmap_same 0%nat), Nat.mul_0_r by by apply Forall_forall.
  - assert (sum_list ((λ k, length (filter (λ x, g x = k) (x :: l))) <$> ks)
            = sum_list ((λ k, (if decide (g x = k) then 1 else 0)
                              + length (filter (λ x, g x = k) l))%nat <$> ks)) as ->.
    { f_equal. apply list_fmap_ext. intros _ k _. rewrite filter_cons.
      by case_decide. }
    rewrite sum_list_fmap_add, sum_list_indicator, IH; [done|..|done|].
    + intros y Hy. apply Hks. by right.
    + apply Hks. left.
Qed.

(** X8. The dict that the grouping loop builds has a key for a frame
    exactly when an entry of the list is on this frame, and holds for it
    the entries of the frame, all of them and no other, in the order of the
    list: the lookup of the export loop finds a non-empty list for every
    frame with localizations. *)
Theorem grouping_by_frame (locs : list Loc) :
  let frame_localizations := foldl group_body ∅ locs in
  ∀ frame,
    let on_frame := filter (λ loc, Localization.frame (to_dict loc) = frame) locs in
    (frame_localizations !! frame = None ↔ on_frame = []) ∧
    (∀ l, frame_localizations !! frame = Some l → l = on_frame) ∧
    (∀ loc, loc ∈ locs → Localization.frame (to_dict loc) = frame →
       ∃ l, frame_localizations !! frame = Some l ∧ loc ∈ l).
Proof.
  intros d frame. unfold d. rewrite frame_localizations_lookup.
  unfold group_spec, on_frame.
  destruct (filter _ locs) as [|first rest] eqn:Hf.
  - split_and!; [done|done|]. intros loc Hloc Hfr.
    assert (loc ∈ filter (λ loc, Localization.frame (to_dict loc) = frame) locs)
      as Hin by by apply list_elem_of_filter.
    rewrite Hf in Hin. by apply elem_of_nil in Hin.
  - split_and!; [done|by intros l [= <-]|]. intros loc Hloc Hfr.
    eexists. split; [done|]. rewrite <-Hf. by apply list_elem_of_filter.
Qed.

(** X9. For a well-formed entry, the documents that are saved for the
    media hold as many objects, all together, as the media has
    localizations: the grouping and the export lose no localization and
    write none twice. *)
Theorem every_localization_written api DOWNLOAD e w :
  well_formed e →
  ∃ S,
    saves (log (run (process_media api DOWNLOAD e) w).2) = saves (log w) ++ S ∧
    sum_list ((λ s, length (Writer.objects s.2)) <$> S)
      = length (localizations e).
Proof.
  intros [locs Hlocs]%reshape_well_formed.
  destruct (process_media_saves api DOWNLOAD e w locs Hlocs) as [_ Hsv].
  exists (media_saves e locs). split; [done|].
  apply rmap_Ok_Forall2 in Hlocs as Hall.
  unfold media_saves. rewrite <-list_fmap_compose.
  rewrite (Forall2_length _ _ _ Hall).
  rewrite <-(sum_list_filter_key (λ loc, Localization.frame (to_dict loc)) locs
               (frames_w_localizations (localizations e))).
  - f_equal. apply list_fmap_ext. intros _ frame _. cbn.
    unfold frame_doc. by rewrite objects_annotation, length_fmap.
  - apply NoDup_frames_w_localizations.
  - intros loc Hloc. apply elem_of_frames_w_localizations.
    destruct (proj1 (list_elem_of_lookup _ _) Hloc) as [i Hi].
    destruct (Forall2_lookup_r _ _ _ _ _ Hall Hi) as (l & Hl & Hr).
    exists l. split; [by eapply list_elem_of_lookup_2|].
    apply reshape_Ok in Hr as (<- & _). done.
Qed.

Lemma every_localization_written_witness :
  ∃ S,
    saves (log (run (process_media Sample.api true Sample.entry) Sample.empty).2)
      = saves (log Sample.empty) ++ S ∧
    sum_list ((λ s, length (Writer.objects s.2)) <$> S)
      = length (localizations Sample.entry).
Proof.
  apply every_localization_written.
  split; [|by vm_compute].
  repeat constructor; by vm_compute.
Defined.

(** ** What a run can raise *)








Lemma checked_prints api PROJECT_ID MEDIA_LIST w :
  extends_with (λ ev, is_print ev = true) w (checked api PROJECT_ID MEDIA_LIST w).
Proof.
  unfold checked. eexists. cbn. split; [by rewrite <-(assoc_L (++))|].
  constructor; [done|]. apply Forall_fmap, Forall_forall. by intros media _.
Qed.



(** ** The files that a media touches *)

Global Instance unchanged_at_preorder p : PreOrder (unchanged_at p).
Proof.
  split; [by intros w|]. intros w1 w2 w3 H1 H2. unfold unchanged_at in *.
  by rewrite H2, H1.
Qed.

Lemma unchanged_at_download_image p frame media_name media_dir api media_id download :
  p ≠ dst_of media_dir media_name frame → p ≠ get_frame api media_id [frame] →
  preserves (unchanged_at p)
    (download_image frame media_name media_dir api media_id download).
Proof.
  intros Hdst Hsrc w. rewrite download_image_run. cbn [snd].
  case_match; [|done]. unfold unchanged_at, fetched. cbn [files].
  by rewrite lookup_insert_ne, lookup_delete_ne, lookup_insert_ne.
Qed.

Lemma unchanged_at_exported p e locs frames w :
  (∀ frame, frame ∈ frames → p ≠ xml_path (media_name e) frame) →
  unchanged_at p w (exported e locs frames w).
Proof. intros H. by apply files_exported. Qed.

(** X12. The loop body of a media changes no file but the image, the
    temporary file and the annotation of the frames of its localizations:
    every other path holds, after the body, what it held before, however
    the body ends and whatever the flag is. *)
Theorem process_media_footprint api DOWNLOAD e w p :
  (∀ l, l ∈ localizations e →
     p ≠ image_path (media_name e) (Localization.frame l) ∧
     p ≠ get_frame api (media_id e) [Localization.frame l] ∧
     p ≠ xml_path (media_name e) (Localization.frame l)) →
  files (run (process_media api DOWNLOAD e) w).2 !! p = files w !! p.
Proof.
  intros Hp.
  assert (∀ frame, frame ∈ frames_w_localizations (localizations e) →
            p ≠ image_path (media_name e) frame ∧
            p ≠ get_frame api (media_id e) [frame] ∧
            p ≠ xml_path (media_name e) frame) as Hfr.
  { intros frame (l & Hl & <-)%elem_of_frames_w_localizations. by apply Hp. }
  assert (unchanged_at p w (downloaded api DOWNLOAD e w)) as Hd.
  { unfold downloaded. etrans; [|apply (preserves_mmap (unchanged_at p))].
    - done.
    - intros frame Hframe. destruct (Hfr frame Hframe) as (? & ? & _).
      by apply unchanged_at_download_image. }
  rewrite process_media_run.
  destruct (rmap (reshape e) (localizations e)) as [locs|ex]; cbn [snd]; [|exact Hd].
  change (unchanged_at p w
            (exported e locs (frames_w_localizations (localizations e))
               (downloaded api DOWNLOAD e w))).
  etrans; [exact Hd|]. apply unchanged_at_exported.
  intros frame Hframe. by destruct (Hfr frame Hframe) as (_ & _ & ?).
Qed.

Lemma process_media_footprint_witness :
  files (run (process_media Sample.api true Sample.entry) Sample.visited).2
    !! "./Data/JPEGImages/a/b_1.jpg"
  = files Sample.visited !! "./Data/JPEGImages/a/b_1.jpg".
Proof.
  apply process_media_footprint. intros l Hl.
  repeat (apply elem_of_cons in Hl as [->|Hl]); [..|by apply elem_of_nil in Hl];
    by vm_compute.
Defined.

(** ** The labels of a run *)

Lemma class_lookup_lookup ls i :
  class_lookup ls !! i
  = class_of <$> last (filter (λ l, Localization.id l = i) ls).
Proof.
  pose proof (kept_lookup (mkCollected ∅ [] []) ls i) as H.
  rewrite kept_loc_id_to_class in H. cbn [c_loc_id_to_class] in H.
  unfold class_lookup. rewrite H. by destruct (last _).
Qed.

(** The localizations that the loops keep for a media whose tracks are in
    order have a class. *)
Lemma kept_localizations_class api PROJECT_ID media l :
  tracks_ok api PROJECT_ID media →
  l ∈ localizations (collected_entry api PROJECT_ID media) →
  (l ∈ track_localizations (get_state_list api PROJECT_ID [Media.id media]) ∨
   l ∈ get_localization_list api PROJECT_ID [Media.id media]) ∧
  Localization.attributes l !! "ScientificName" = Some (class_of l).
Proof.
  intros Hok. cbn. unfold kept_localizations.
  intros [[Hk Hl]%list_elem_of_filter|[Hc Hl]%list_elem_of_filter]%elem_of_app.
  - split; [by left|].
    destruct (proj1 (Forall_forall _ _) Hok l Hl Hk) as [cl Hcl].
    unfold class_of. by rewrite Hcl.
  - split; [by right|]. destruct Hc as [cl Hcl]. unfold class_of. by rewrite Hcl.
Qed.

Lemma collected_entry_label api PROJECT_ID media l loc :
  tracks_ok api PROJECT_ID media →
  l ∈ localizations (collected_entry api PROJECT_ID media) →
  reshape (collected_entry api PROJECT_ID media) l = Ok loc →
  ∃ l',
    (l' ∈ track_localizations (get_state_list api PROJECT_ID [Media.id media]) ∨
     l' ∈ get_localization_list api PROJECT_ID [Media.id media]) ∧
    Localization.attributes l' !! "ScientificName" = Some (class_category loc).
Proof.
  intros Hok Hl (_ & _ & _ & Hclass)%reshape_Ok.
  cbn [collected_entry loc_id_to_class] in Hclass.
  rewrite class_lookup_lookup in Hclass.
  destruct (last _) as [l'|] eqn:Hlast.
  - exists l'. cbn in Hclass. rewrite Hclass.
    apply kept_localizations_class; [done|].
    apply last_Some_elem_of in Hlast.
    by apply list_elem_of_filter in Hlast as [_ Hin].
  - apply last_None in Hlast.
    assert (l ∈ filter (λ k, Localization.id k = Localization.id l)
                  (localizations (collected_entry api PROJECT_ID media))) as Hin
      by by apply list_elem_of_filter.
    cbn in Hin. rewrite Hlast in Hin. by apply elem_of_nil in Hin.
Qed.

Lemma saves_extends_with (P : Event → Prop) w w' :
  extends_with P w w' →
  ∃ S, saves (log w') = saves (log w) ++ S ∧
       ∀ p doc, (p, doc) ∈ S → P (Save p doc).
Proof.
  intros (evs & -> & Hevs). exists (saves evs). split; [apply saves_app|].
  intros p doc Hin%elem_of_saves. by apply (proj1 (Forall_forall _ _) Hevs).
Qed.

(** X13. In a run of the notebook, however it ends, the name of every
    object of every document that is saved is the value of the key
    ["ScientificName"] of a localization that the client gave for a
    requested media: the collector gives every localization it keeps an
    entry in the dict, and the label ["Unknown"] of the export is written
    only when it is such a value. *)
Theorem labels_come_from_the_project api DOWNLOAD PROJECT_ID MEDIA_LIST w :
  ∃ S,
    saves (log (run (notebook api DOWNLOAD PROJECT_ID MEDIA_LIST) w).2)
      = saves (log w) ++ S ∧
    ∀ p doc o, (p, doc) ∈ S → o ∈ Writer.objects doc →
      ∃ media l,
        media ∈ get_media_list api PROJECT_ID ∧ Media.name media ∈ MEDIA_LIST ∧
        (l ∈ track_localizations (get_state_list api PROJECT_ID [Media.id media]) ∨
         l ∈ get_localization_list api PROJECT_ID [Media.id media]) ∧
        Localization.attributes l !! "ScientificName" = Some (Writer.name o).
Proof.
  set (P := λ ev, ∀ p doc, ev = Save p doc →
                  ∀ o, o ∈ Writer.objects doc →
                    class_of_project api PROJECT_ID MEDIA_LIST (Writer.name o)).
  assert (extends_with P w (run (notebook api DOWNLOAD PROJECT_ID MEDIA_LIST) w).2)
    as Hext.
  { rewrite notebook_run, run_bind.
    set (w0 := checked api PROJECT_ID MEDIA_LIST w).
    assert (extends_with P w w0) as H0.
    { eapply extends_with_mono; [|apply checked_prints].
      by intros [] ?. }
    destruct (run (collect api PROJECT_ID MEDIA_LIST (get_media_list api PROJECT_ID)) w0)
      as [[r|ex0] w1] eqn:Hc.
    - apply mfold_collect_media_Ok in Hc as (Hes & _ & -> & Hok).
      cbn [fst snd app] in Hes. rewrite Hes. etrans; [exact H0|].
      etrans; [|apply (preserves_mfor (extends_with P))].
      { eexists. split; [done|]. apply Forall_fmap, Forall_forall.
        by intros media _. }
      intros e (media & -> & [Hsel Hin]%list_elem_of_filter)%list_elem_of_fmap w2.
      assert (tracks_ok api PROJECT_ID media) as Hm.
      { apply (proj1 (Forall_forall _ _) Hok). by apply list_elem_of_filter. }
      rewrite process_media_run.
      assert (extends_with P w2
                (downloaded api DOWNLOAD (collected_entry api PROJECT_ID media) w2))
        as Hd.
      { eapply extends_with_mono; [|apply downloaded_events].
        intros ev [Hev|(frame & _ & [-> | ->])]; [by destruct ev|done..]. }
      destruct (rmap _ _) as [locs|ex] eqn:Hlocs; cbn [snd]; [|exact Hd].
      etrans; [exact Hd|]. eexists. split; [apply log_exported|].
      apply Forall_fmap, Forall_forall. intros frame _ p doc [= _ <-] o.
      unfold frame_doc. rewrite objects_annotation.
      intros (loc & -> & [_ Hloc]%list_elem_of_filter)%list_elem_of_fmap.
      apply rmap_Ok_Forall2 in Hlocs.
      destruct (proj1 (list_elem_of_lookup _ _) Hloc) as [i Hi].
      destruct (Forall2_lookup_r _ _ _ _ _ Hlocs Hi) as (l & Hl & Hr).
      apply list_elem_of_lookup_2 in Hl.
      destruct (collected_entry_label _ _ _ _ _ Hm Hl Hr) as (l' & Hl' & Hcl).
      by exists media, l'.
    - apply mfold_collect_media_Raise in Hc as (_ & _ & _ & He).
      cbn [snd]. etrans; [exact H0|].
      eapply extends_with_mono; [|exact He]. by intros [] ?. }
  destruct (saves_extends_with _ _ _ Hext) as (S & HS & HP).
  exists S. split; [done|]. intros p doc o Hin Ho. by apply (HP p doc Hin p doc).
Qed.

(** ** The download block *)

Lemma filter_ext_in {A} (P Q : A → Prop) `{!∀ x, Decision (P x)}
    `{!∀ x, Decision (Q x)} (l : list A) :
  (∀ x, x ∈ l → P x ↔ Q x) → filter P l = filter Q l.
Proof.
  induction l as [|x l IH]; intros Hext; [done|].
  rewrite !filter_cons, IH by (intros y Hy; apply Hext; by right).
  assert (P x ↔ Q x) as Hx by (apply Hext; left).
  destruct (decide (P x)) as [HP|HP]; destruct (decide (Q x)) as [HQ|HQ];
    try done; exfalso; [apply HQ|apply HP]; by apply Hx.
Qed.

Lemma mmap_cons_world {A B} (f : A → M B) x l w y :
  (run (f x) w).1 = Ok y →
  (run (mmap f (x :: l)) w).2 = (run (mmap f l) (run (f x) w).2).2.
Proof.
  intros Hx. rewrite mmap_cons, run_bind.
  destruct (run (f x) w) as [r w1]. cbn in Hx. subst r. rewrite run_bind. cbn [snd].
  by destruct (run (mmap f l) w1) as [[ys|ex] w2].
Qed.



Lemma saves_download_events api media_name media_id frames :
  saves (download_events api media_name media_id frames) = [].
Proof. induction frames as [|f fs IH]; [done|]. by cbn. Qed.

(** The download of distinct frames, when no temporary file is at the
    image path of one of them. *)
Lemma download_all api n id (fs : list Z) w :
  NoDup fs →
  (∀ f f', f ∈ fs → f' ∈ fs → get_frame api id [f] ≠ image_path n f') →
  let w' := (run (mmap (λ frame, download_image frame n IMAGE_DIR api id true) fs) w).2 in
  (∀ f, f ∈ fs →
     files w' !! image_path n f
     = Some (default (Jpeg id [f]) (files w !! image_path n f))) ∧
  (∀ p, (∀ f, f ∈ fs → p ≠ image_path n f ∧
                       (missing n w f → p ≠ get_frame api id [f])) →
     files w' !! p = files w !! p) ∧
  (∀ f, f ∈ fs → missing n w f → files w' !! get_frame api id [f] = None) ∧
  log w' = log w ++ download_events api n id (filter (missing n w) fs).
Proof.
  intros Hnd. revert w. induction Hnd as [|f0 fs Hf0 Hnd IH]; intros w Htmp.
  - cbn. split_and!; [by intros f ?%elem_of_nil|done|by intros f ?%elem_of_nil|].
    by rewrite app_nil_r.
  - cbv zeta.
    rewrite (mmap_cons_world _ _ _ _ (image_path n f0))
      by by rewrite download_image_run.
    rewrite download_image_run. cbn [snd andb].
    change (dst_of IMAGE_DIR n f0) with (image_path n f0).
    set (w1 := if bool_decide (files w !! image_path n f0 = None)
               then fetched api id f0 (image_path n f0) w else w).
    assert (get_frame api id [f0] ≠ image_path n f0) as Hsrc0
      by (apply Htmp; left).
    assert (∀ p, p ≠ image_path n f0 →
                 (missing n w f0 → p ≠ get_frame api id [f0]) →
                 files w1 !! p = files w !! p) as Hd.
    { intros p Hp1 Hp2. unfold w1. case_bool_decide as Hm; [|done].
      unfold fetched. cbn [files].
      by rewrite lookup_insert_ne, lookup_delete_ne, lookup_insert_ne
        by (try done; apply not_eq_sym; auto). }
    assert (∀ f, f ∈ fs → files w1 !! image_path n f = files w !! image_path n f)
      as Ha.
    { intros f Hf. apply Hd.
      - intros Heq%(inj _). by subst.
      - intros _. apply not_eq_sym, Htmp; [left|by right]. }
    assert (files w1 !! image_path n f0
            = Some (default (Jpeg id [f0]) (files w !! image_path n f0))) as Hb.
    { unfold w1. case_bool_decide as Hm.
      - rewrite fetched_dst. by rewrite Hm.
      - destruct (files w !! image_path n f0); [done|by destruct Hm]. }
    assert (missing n w f0 → files w1 !! get_frame api id [f0] = None) as Hc.
    { intros Hm. unfold w1. rewrite bool_decide_eq_true_2 by done.
      unfold fetched. cbn [files].
      by rewrite lookup_insert_ne, lookup_delete_eq by by apply not_eq_sym. }
    assert (log w1 = log w ++ download_events api n id
                                (if decide (missing n w f0) then [f0] else []))
      as He.
    { unfold w1. case_bool_decide as Hm.
      - by rewrite decide_True by done.
      - rewrite decide_False by done. by rewrite app_nil_r. }
    assert (filter (missing n w1) fs = filter (missing n w) fs) as Hfil.
    { apply filter_ext_in. intros f Hf. unfold missing. by rewrite Ha. }
    destruct (IH w1) as (I1 & I2 & I3 & I4).
    { intros f f' Hf Hf'. apply Htmp; by right. }
    split_and!.
    + intros f [->|Hf]%elem_of_cons.
      * rewrite I2; [done|]. intros f Hf. split.
        -- intros Heq%(inj _). by subst.
        -- intros _. apply not_eq_sym, Htmp; [by right|left].
      * by rewrite I1, Ha.
    + intros p Hp. rewrite I2, Hd; [done|..].
      * apply Hp. left.
      * apply Hp. left.
      * intros f Hf. destruct (Hp f) as [Hp1 Hp2]; [by right|].
        split; [done|]. unfold missing. rewrite Ha by done. exact Hp2.
    + intros f [->|Hf]%elem_of_cons Hm.
      * destruct (decide (Exists (λ f, missing n w1 f ∧
                                       get_frame api id [f0] = get_frame api id [f]) fs))
          as [Hex|Hex].
        -- apply Exists_exists in Hex as (f & Hf & Hmf & ->). by apply I3.
        -- rewrite I2; [by apply Hc|]. intros f Hf. split.
           ++ apply Htmp; [left|by right].
           ++ intros Hmf Heq. apply Hex, Exists_exists. by exists f.
      * apply I3; [done|]. unfold missing. by rewrite Ha.
    + rewrite I4, He, Hfil, filter_cons, <-(assoc_L (++)). f_equal.
      unfold download_events. case_decide; [|done]. by rewrite bind_cons.
Qed.



(** ** A second run *)

Global Instance images_stay_preorder : PreOrder images_stay.
Proof.
  split; [by intros w n f|]. intros w1 w2 w3 H1 H2 n f Hf. by apply H2, H1.
Qed.

Lemma images_stay_download_image frame media_name api media_id download :
  (∀ n f, get_frame api media_id [frame] ≠ image_path n f) →
  preserves images_stay
    (download_image frame media_name IMAGE_DIR api media_id download).
Proof.
  intros Htmp w. rewrite download_image_run. cbn [snd]. case_match; [|done].
  intros n f Hf. unfold fetched. cbn [files].
  destruct (decide (image_path n f = dst_of IMAGE_DIR media_name frame)) as [->|Hne].
  - rewrite lookup_insert_eq. by eexists.
  - by rewrite lookup_insert_ne, lookup_delete_ne, lookup_insert_ne
      by (try done; apply Htmp).
Qed.

Lemma images_stay_untouched w w' : images_untouched w w' → images_stay w w'.
Proof.
  intros [Hf _] n f. by rewrite Hf by apply PathFacts.image_path_not_xml.
Qed.

Lemma exported_untouched e locs frames w :
  images_untouched w (exported e locs frames w).
Proof.
  split.
  - intros p Hp. apply files_exported. intros frame _ ->.
    by rewrite PathFacts.xml_path_endswith in Hp.
  - eexists. split; [apply log_exported|].
    apply Forall_fmap, Forall_forall. by intros frame _.
Qed.

Lemma images_stay_process_media api DOWNLOAD e :
  (∀ frame n f, get_frame api (media_id e) [frame] ≠ image_path n f) →
  preserves images_stay (process_media api DOWNLOAD e).
Proof.
  intros Htmp w. rewrite process_media_run.
  assert (images_stay w (downloaded api DOWNLOAD e w)) as Hd.
  { unfold downloaded. etrans; [|apply (preserves_mmap images_stay)].
    - by intros n f.
    - intros frame _. apply images_stay_download_image. apply Htmp. }
  destruct (rmap (reshape e) (localizations e)) as [locs|ex]; cbn [snd]; [|exact Hd].
  etrans; [exact Hd|]. apply images_stay_untouched, exported_untouched.
Qed.

(** After the loop body of a media ended normally with the flag on, the
    images of its frames are there. *)
Lemma process_media_images api e w w' :
  (∀ frame n f, get_frame api (media_id e) [frame] ≠ image_path n f) →
  run (process_media api true e) w = (Ok (), w') →
  ∀ frame, frame ∈ frames_w_localizations (localizations e) →
    is_Some (files w' !! image_path (media_name e) frame).
Proof.
  intros Htmp. rewrite process_media_run.
  destruct (rmap (reshape e) (localizations e)) as [locs|ex]; [|done].
  intros [= <-] frame Hframe.
  apply (images_stay_untouched _ _ (exported_untouched e locs _ _)).
  unfold downloaded.
  destruct (download_all api (media_name e) (media_id e)
              (frames_w_localizations (localizations e))
              (emit (Print ("Downloading frames and annotations for:  "
                            +:+ media_name e)) w)) as (H1 & _).
  { apply NoDup_frames_w_localizations. }
  { intros f f' _ _. apply Htmp. }
  unfold download_frames. rewrite (H1 frame Hframe). by eexists.
Qed.

Lemma annotate_images api entries w w' :
  (∀ media_id frame n f, get_frame api media_id [frame] ≠ image_path n f) →
  run (download_and_annotate api true entries) w = (Ok (), w') →
  ∀ e frame, e ∈ entries → frame ∈ frames_w_localizations (localizations e) →
    is_Some (files w' !! image_path (media_name e) frame).
Proof.
  intros Htmp. unfold download_and_annotate. revert w.
  induction entries as [|e0 entries IH]; intros w; [by intros _ e frame ?%elem_of_nil|].
  rewrite mfor_cons, run_bind.
  destruct (run (process_media api true e0) w) as [[[]|ex] w1] eqn:H0; [|done].
  intros Hrest e frame [->|He]%elem_of_cons Hframe.
  - assert (images_stay w1 w') as Hstay.
    { replace w' with (run (mfor entries (process_media api true)) w1).2
        by by rewrite Hrest.
      apply (preserves_mfor images_stay). intros e _.
      apply images_stay_process_media. intros f. apply Htmp. }
    apply Hstay. eapply process_media_images; [|done..]. intros f. apply Htmp.
  - by eapply IH.
Qed.

(** When the images of the frames of a media are there, its download block
    does nothing. *)
Lemma download_frames_present api DOWNLOAD e w :
  (∀ frame, frame ∈ frames_w_localizations (localizations e) →
     is_Some (files w !! image_path (media_name e) frame)) →
  (run (download_frames api DOWNLOAD e) w).2 = w.
Proof.
  unfold download_frames.
  induction (frames_w_localizations (localizations e)) as [|f fs IH]; intros Hp;
    [done|].
  rewrite (mmap_cons_world _ _ _ _ (image_path (media_name e) f))
    by by rewrite download_image_run.
  rewrite download_image_run. cbn [snd].
  change (dst_of IMAGE_DIR (media_name e) f) with (image_path (media_name e) f).
  rewrite bool_decide_eq_false_2, andb_false_r.
  - apply IH. intros frame Hframe. apply Hp. by right.
  - intros Hnone. destruct (Hp f) as [x Hx]; [left|]. congruence.
Qed.

Lemma process_media_present api e w :
  (∀ frame, frame ∈ frames_w_localizations (localizations e) →
     is_Some (files w !! image_path (media_name e) frame)) →
  run (process_media api true e) w = run (process_media api false e) w.
Proof.
  intros Hp. rewrite !process_media_run. unfold downloaded.
  by rewrite download_frames_present, download_frames_off.
Qed.

Lemma annotate_present api entries w :
  (∀ e frame, e ∈ entries → frame ∈ frames_w_localizations (localizations e) →
     is_Some (files w !! image_path (media_name e) frame)) →
  run (download_and_annotate api true entries) w
  = run (download_and_annotate api false entries) w.
Proof.
  unfold download_and_annotate. revert w.
  induction entries as [|e0 entries IH]; intros w Hp; [done|].
  rewrite !mfor_cons, !run_bind, process_media_present
    by (intros frame Hframe; apply Hp; [left|done]).
  pose proof (images_untouched_process_media api e0 w) as Hu.
  destruct (run (process_media api false e0) w) as [[[]|ex] w1]; [|done].
  apply IH. intros e frame He Hframe.
  apply (images_stay_untouched _ _ Hu). apply Hp; [by right|done].
Qed.

Lemma filter_hidden (l : list Event) : filter (λ _ : Event, false) l = [].
Proof.
  induction l as [|ev l IH]; [done|]. rewrite filter_cons.
  by rewrite decide_False by by intros ?.
Qed.

(** After a run with the flag on that ended normally, a run with the flag
    on is a run with the flag off. *)
Lemma second_run_flag_off api PROJECT_ID MEDIA_LIST w w1 :
  (∀ media_id frame media_name frame',
     get_frame api media_id [frame] ≠ image_path media_name frame') →
  run (notebook api true PROJECT_ID MEDIA_LIST) w = (Ok (), w1) →
  run (notebook api true PROJECT_ID MEDIA_LIST) w1
  = run (notebook api false PROJECT_ID MEDIA_LIST) w1.
Proof.
  intros Htmp Hrun. rewrite notebook_run, run_bind in Hrun.
  destruct (run (collect api PROJECT_ID MEDIA_LIST (get_media_list api PROJECT_ID))
              (checked api PROJECT_ID MEDIA_LIST w)) as [[c|ex] w2] eqn:Hc; [|done].
  apply mfold_collect_media_Ok in Hc as (Hes & _ & _ & _).
  pose proof (annotate_images api _ _ _ Htmp Hrun) as Himg.
  rewrite !notebook_run, !run_bind.
  destruct (run (collect api PROJECT_ID MEDIA_LIST (get_media_list api PROJECT_ID))
              (checked api PROJECT_ID MEDIA_LIST w1)) as [[c'|ex] w3] eqn:Hc'; [|done].
  apply mfold_collect_media_Ok in Hc' as (Hes' & _ & -> & _).
  rewrite Hes', <-Hes. apply annotate_present. intros e frame He Hframe.
  by apply Himg.
Qed.

(** The result of a run depends neither on the world nor on the flag. *)
Lemma notebook_result api D1 D2 PROJECT_ID MEDIA_LIST w1 w2 :
  (run (notebook api D1 PROJECT_ID MEDIA_LIST) w1).1
  = (run (notebook api D2 PROJECT_ID MEDIA_LIST) w2).1.
Proof.
  rewrite !notebook_run.
  apply (related_collect_and_download (λ _, false) false api D1 D2
           PROJECT_ID MEDIA_LIST (get_media_list api PROJECT_ID)).
  - by right.
  - split; [by rewrite !filter_hidden|done].
Qed.

(** X15. When no temporary file of the client is at an image path, a run
    of the notebook with the flag on that follows a run with the flag on
    that ended normally is a run with the flag off: it ends normally,
    fetches and moves nothing, and changes no file but the annotations it
    writes again. *)
Theorem second_run_downloads_nothing api PROJECT_ID MEDIA_LIST w w1 :
  (∀ media_id frame media_name frame',
     get_frame api media_id [frame] ≠ image_path media_name frame') →
  run (notebook api true PROJECT_ID MEDIA_LIST) w = (Ok (), w1) →
  let r := run (notebook api true PROJECT_ID MEDIA_LIST) w1 in
  r = run (notebook api false PROJECT_ID MEDIA_LIST) w1 ∧
  r.1 = Ok () ∧
  fetches (log r.2) = fetches (log w1) ∧
  moves (log r.2) = moves (log w1) ∧
  ∀ p, Str.endswith ".xml" p = false → files r.2 !! p = files w1 !! p.
Proof.
  intros Htmp Hrun. cbv zeta.
  pose proof (second_run_flag_off _ _ _ _ _ Htmp Hrun) as Heq. rewrite Heq.
  destruct (images_untouched_notebook api PROJECT_ID MEDIA_LIST w1) as [Hf He].
  split_and!; [done| | | |done].
  - by rewrite (notebook_result api false true PROJECT_ID MEDIA_LIST w1 w), Hrun.
  - unfold fetches. apply (omap_no_new _ (λ ev, is_download ev = false)); [|done].
    by intros [].
  - unfold moves. apply (omap_no_new _ (λ ev, is_download ev = false)); [|done].
    by intros [].
Qed.

Lemma second_run_downloads_nothing_witness :
  let w1 := (run (notebook Sample.api true 70 ["dive:1.mov"]) Sample.empty).2 in
  let r := run (notebook Sample.api true 70 ["dive:1.mov"]) w1 in
  r = run (notebook Sample.api false 70 ["dive:1.mov"]) w1 ∧
  r.1 = Ok () ∧
  fetches (log r.2) = fetches (log w1) ∧
  moves (log r.2) = moves (log w1) ∧
  ∀ p, Str.endswith ".xml" p = false → files r.2 !! p = files w1 !! p.
Proof.
  apply (second_run_downloads_nothing Sample.api 70 ["dive:1.mov"] Sample.empty).
  - intros media_id frame media_name frame' H.
    apply (f_equal (String.get 0)) in H. by lazy in H.
  - vm_compute. reflexivity.
Defined.

(** ** The sign of a box *)

Lemma binary_round_aux_sign s m e l :
  match binary_round_aux PyFloat.prec PyFloat.emax s m e l with
  | S754_zero s' | S754_finite s' _ _ | S754_infinity s' => s' = s
  | S754_nan => True
  end.
Proof.
  unfold binary_round_aux. destruct (shr_fexp _ _ _ _ _) as [mrs' e'].
  destruct (shr_fexp _ _ _ _ _) as [mrs'' e''].
  destruct (shr_m mrs''); [done| |done].
  by destruct (_ <=? _).
Qed.

Lemma of_int_nonneg n g :
  0 ≤ n → PyFloat.of_int n = Ok g →
  match g with
  | S754_zero _ | S754_nan => True
  | S754_finite s _ _ => s = false
  | S754_infinity _ => False
  end.
Proof.
  unfold PyFloat.of_int, binary_normalize. intros Hn.
  destruct n as [|p|p]; [by intros [= <-]| |lia].
  unfold binary_round. destruct (shl_align _ _ _) as [mz ez].
  pose proof (binary_round_aux_sign false (Zpos mz) ez loc_Exact) as Hs.
  destruct (binary_round_aux _ _ _ _ _ _); intros [= <-]; done.
Qed.

Lemma mul_int_to_int_nonneg f n z :
  nonnegative f → 0 ≤ n →
  PyFloat.mul_int f n ≫= PyFloat.to_int = Ok z → 0 ≤ z.
Proof.
  intros Hf Hn. unfold PyFloat.mul_int.
  destruct (PyFloat.of_int n) as [g|ex] eqn:Hg; [|done].
  apply of_int_nonneg in Hg; [|done]. cbn.
  destruct f as [sf|sf| |sf mf ef], g as [sg|sg| |sg mg eg]; cbn in *;
    try done; try (intros [= <-]; lia).
  subst sf sg. cbn.
  pose proof (binary_round_aux_sign false (Zpos (mf * mg)) (ef + eg) loc_Exact) as Hs.
  destruct (binary_round_aux _ _ _ _ _ _) as [s'|s'| |s' m' e']; cbn;
    intros [= <-]; [lia|]. subst s'. cbn. by apply Z.shiftl_nonneg.
Qed.

Lemma mul_int_to_int_zero f n z :
  (∃ s, f = S754_zero s) ∨ n = 0 →
  PyFloat.mul_int f n ≫= PyFloat.to_int = Ok z → z = 0.
Proof.
  unfold PyFloat.mul_int. intros [[s ->]| ->].
  - destruct (PyFloat.of_int n) as [g|ex]; [|done]. cbn.
    destruct g; cbn; by intros [= <-].
  - change (PyFloat.of_int 0) with (Ok (S754_zero false) : result spec_float). cbn.
    destruct f; cbn; by intros [= <-].
Qed.

(** X16. When a box is converted, coordinates that are not below zero and
    a media whose width and height are not below zero give a box that
    starts at or after the origin and is not inverted: [0 ≤ xmin ≤ xmax]
    and [0 ≤ ymin ≤ ymax].  A width of zero, or a media of width zero,
    gives [xmax = xmin], and a media of width zero puts both at [0]; the
    same holds for the heights. *)
Theorem bbox_sign l W H b :
  bbox_of l W H = Ok b →
  (nonnegative (Localization.x l) → nonnegative (Localization.width l) → 0 ≤ W →
     0 ≤ xmin b ≤ xmax b) ∧
  (nonnegative (Localization.y l) → nonnegative (Localization.height l) → 0 ≤ H →
     0 ≤ ymin b ≤ ymax b) ∧
  ((∃ s, Localization.width l = S754_zero s) ∨ W = 0 → xmax b = xmin b) ∧
  ((∃ s, Localization.height l = S754_zero s) ∨ H = 0 → ymax b = ymin b) ∧
  (W = 0 → xmin b = 0) ∧ (H = 0 → ymin b = 0).
Proof.
  intros (fx & fy & fw & fh & w & h & Hx & Hy & Hw & Hh & Hxm & Hym & Hwi & Hhi
          & Hxmax & Hymax)%bbox_of_Ok.
  assert (PyFloat.mul_int (Localization.x l) W ≫= PyFloat.to_int = Ok (xmin b))
    as Ex by by rewrite Hx.
  assert (PyFloat.mul_int (Localization.y l) H ≫= PyFloat.to_int = Ok (ymin b))
    as Ey by by rewrite Hy.
  assert (PyFloat.mul_int (Localization.width l) W ≫= PyFloat.to_int = Ok w)
    as Ew by by rewrite Hw.
  assert (PyFloat.mul_int (Localization.height l) H ≫= PyFloat.to_int = Ok h)
    as Eh by by rewrite Hh.
  split_and!.
  - intros Nx Nw HW.
    pose proof (mul_int_to_int_nonneg _ _ _ Nx HW Ex).
    pose proof (mul_int_to_int_nonneg _ _ _ Nw HW Ew). lia.
  - intros Ny Nh HH.
    pose proof (mul_int_to_int_nonneg _ _ _ Ny HH Ey).
    pose proof (mul_int_to_int_nonneg _ _ _ Nh HH Eh). lia.
  - intros Hz. pose proof (mul_int_to_int_zero _ _ _ Hz Ew). lia.
  - intros Hz. pose proof (mul_int_to_int_zero _ _ _ Hz Eh). lia.
  - intros Hz. apply (mul_int_to_int_zero _ _ _ (or_intror Hz) Ex).
  - intros Hz. apply (mul_int_to_int_zero _ _ _ (or_intror Hz) Ey).
Qed.

Lemma bbox_sign_witness :
  let l := Sample.fish in
  let b := mkBBox 50 12 100 37 in
  (nonnegative (Localization.x l) → nonnegative (Localization.width l) → 0 ≤ 100 →
     0 ≤ xmin b ≤ xmax b) ∧
  (nonnegative (Localization.y l) → nonnegative (Localization.height l) → 0 ≤ 50 →
     0 ≤ ymin b ≤ ymax b) ∧
  ((∃ s, Localization.width l = S754_zero s) ∨ 100 = 0 → xmax b = xmin b) ∧
  ((∃ s, Localization.height l = S754_zero s) ∨ 50 = 0 → ymax b = ymin b) ∧
  (100 = 0 → xmin b = 0) ∧ (50 = 0 → ymin b = 0).
Proof.
  apply (bbox_sign Sample.fish 100 50 (mkBBox 50 12 100 37)).
  vm_compute. reflexivity.
Defined.

(** ** The media check and the collector *)

Lemma check_media_found medias_names media w :
  (run (check_media medias_names media) w).2
    = emit (Print ("This media WAS found: " +:+ media)) w
  ↔ media ∈ medias_names.
Proof.
  unfold check_media. case_bool_decide as Hin; cbn.
  - done.
  - split; [|done]. intros Heq. exfalso.
    apply (f_equal log) in Heq. cbn in Heq. apply (inj (app _)) in Heq.
    injection Heq as Heq. discriminate Heq.
Qed.

(** X17. The media check and the collector agree: when the collector ends
    normally, the line of a requested name says that the media was found
    exactly when [media_w_localizations] has an entry for a media of the
    project of that name. *)
Theorem found_medias_are_collected api PROJECT_ID MEDIA_LIST w entries classes w'
    name w0 :
  let medias := get_media_list api PROJECT_ID in
  run (collect api PROJECT_ID MEDIA_LIST medias) w = (Ok (entries, classes), w') →
  name ∈ MEDIA_LIST →
  (run (check_media (Media.name <$> medias) name) w0).2
    = emit (Print ("This media WAS found: " +:+ name)) w0
  ↔ ∃ media e,
      media ∈ medias ∧ Media.name media = name ∧
      e ∈ entries ∧ media_id e = Media.id media ∧
      media_name e = Str.replace ":" "_" name.
Proof.
  intros medias (Hes & _)%mfold_collect_media_Ok Hname.
  cbn [fst snd app] in Hes. subst entries. rewrite check_media_found. split.
  - intros (media & -> & Hm)%list_elem_of_fmap.
    exists media, (collected_entry api PROJECT_ID media). split_and!; [done..| |done|done].
    apply list_elem_of_fmap_2. by apply list_elem_of_filter.
  - intros (media & e & Hm & <- & _). by apply list_elem_of_fmap_2.
Qed.

Lemma found_medias_are_collected_witness :
  (run (check_media (Media.name <$> get_media_list Sample.api 70) "dive:1.mov")
     Sample.empty).2
    = emit (Print ("This media WAS found: " +:+ "dive:1.mov")) Sample.empty
  ↔ ∃ media e,
      media ∈ get_media_list Sample.api 70 ∧ Media.name media = "dive:1.mov" ∧
      e ∈ Sample.entries ∧ media_id e = Media.id media ∧
      media_name e = Str.replace ":" "_" "dive:1.mov".
Proof.
  apply (found_medias_are_collected Sample.api 70 ["dive:1.mov"] Sample.empty
           Sample.entries ["Crab"; "Fish"; "Crab"] Sample.collecting).
  - vm_compute. reflexivity.
  - left.
Defined.

(** ** The parts of a name *)

Lemma split_first_field sep s :
  Str.contains sep s = true →
  ∃ rest, s = (Str.split sep s).1 +:+ String sep rest.
Proof.
  induction s as [|a s IH]; [done|]. cbn.
  destruct (Str.split sep s) as [hd tl] eqn:Hs.
  destruct (decide (a = sep)) as [->|Hne].
  - intros _. by exists s.
  - intros [rest Hrest]%IH. exists rest. cbn in *.
    by rewrite StrFacts.app_cons, <-Hrest.
Qed.

Lemma basename_suffix p :
  ∃ dir, p = dir +:+ Str.basename p ∧ (dir = "" ∨ Str.endswith "/" dir = true).
Proof.
  induction p as [|a p (dir & Hp & Hdir)]; [by exists ""; split; [|left]|].
  rewrite StrFacts.basename_cons.
  destruct (decide (a = "/"%char)) as [->|Hne].
  - exists (String "/" dir). split; [by rewrite StrFacts.app_cons, <-Hp|].
    right. destruct Hdir as [->|Hd]; [done|]. cbn. by rewrite Hd, orb_true_r.
  - destruct (Str.contains "/" p) eqn:Hc.
    + exists (String a dir). split; [by rewrite StrFacts.app_cons, <-Hp|].
      right. destruct Hdir as [->|Hd]; [|cbn; by rewrite Hd, orb_true_r].
      rewrite StrFacts.app_nil_l in Hp.
      pose proof (StrFacts.basename_no_slash_result p) as Hn. congruence.
    + exists "". split; [done|by left].
Qed.

(** X18. The two cuts of a name that the paths are built from.  The part
    of a media name that is kept is what precedes its first dot, the whole
    name when it has none: what follows the first dot is dropped, not only
    an extension.  The base name of a path is what follows its last slash:
    it has no slash, and what precedes it is empty or ends with a slash. *)
Theorem name_cuts (s : string) :
  let stem := (Str.split "." s).1 in
  Str.contains "." stem = false ∧
  (Str.contains "." s = false → stem = s) ∧
  (Str.contains "." s = true → ∃ rest, s = stem +:+ "." +:+ rest) ∧
  Str.contains "/" (Str.basename s) = false ∧
  (Str.contains "/" s = false → Str.basename s = s) ∧
  ∃ dir, s = dir +:+ Str.basename s ∧ (dir = "" ∨ Str.endswith "/" dir = true).
Proof.
  cbv zeta. split_and!.
  - apply StrFacts.split_fst_no_sep.
  - intros H. by rewrite (StrFacts.split_no_sep _ _ H).
  - apply split_first_field.
  - apply StrFacts.basename_no_slash_result.
  - apply StrFacts.basename_no_slash.
  - apply basename_suffix.
Qed.

(** ** Annotations and their images *)

(** X19. After a run of the notebook with the flag on that ended normally,
    when no temporary file of the client is at an image path, every
    document that the run saved names, as its path, an image that is there
    at the end of the run. *)
Theorem annotations_have_images api PROJECT_ID MEDIA_LIST w w1 :
  (∀ media_id frame media_name frame',
     get_frame api media_id [frame] ≠ image_path media_name frame') →
  run (notebook api true PROJECT_ID MEDIA_LIST) w = (Ok (), w1) →
  ∃ S,
    saves (log w1) = saves (log w) ++ S ∧
    ∀ p doc, (p, doc) ∈ S → is_Some (files w1 !! Writer.path doc).
Proof.
  intros Htmp Hrun. rewrite notebook_run, run_bind in Hrun.
  set (w0 := checked api PROJECT_ID MEDIA_LIST w) in *.
  destruct (run (collect api PROJECT_ID MEDIA_LIST (get_media_list api PROJECT_ID)) w0)
    as [[c|ex] w2] eqn:Hc; [|done].
  apply mfold_collect_media_Ok in Hc as (_ & _ & Hw2 & _).
  pose proof (annotate_images api _ _ _ Htmp Hrun) as Himg.
  set (P := λ ev, ∀ p doc, ev = Save p doc → is_Some (files w1 !! Writer.path doc)).
  assert (extends_with P w w1) as Hext.
  { trans w0; [|trans w2].
    - eapply extends_with_mono; [|apply checked_prints]. by intros [] ?.
    - exists (collecting_message
                <$> selected MEDIA_LIST (get_media_list api PROJECT_ID)).
      split; [by rewrite Hw2|]. apply Forall_fmap, Forall_forall. by intros media _.
    - replace w1 with (run (download_and_annotate api true c.1) w2).2
        by by rewrite Hrun.
      unfold download_and_annotate. apply (preserves_mfor (extends_with P)).
      intros e He w3. eapply extends_with_mono; [|apply process_media_events].
      intros ev [Hev|[(frame & _ & [-> | ->])|(frame & locs & Hframe & ->)]];
        [by destruct ev|done|done|].
      intros p doc [= _ <-]. unfold frame_doc. rewrite path_annotation.
      by apply Himg. }
  destruct (saves_extends_with _ _ _ Hext) as (S & HS & HP).
  exists S. split; [done|]. intros p doc Hin. by apply (HP p doc Hin p doc).
Qed.

Lemma annotations_have_images_witness :
  let w1 := (run (notebook Sample.api true 70 ["dive:1.mov"]) Sample.empty).2 in
  ∃ S,
    saves (log w1) = saves (log Sample.empty) ++ S ∧
    ∀ p doc, (p, doc) ∈ S → is_Some (files w1 !! Writer.path doc).
Proof.
  apply (annotations_have_images Sample.api 70 ["dive:1.mov"] Sample.empty).
  - intros media_id frame media_name frame' H.
    apply (f_equal (String.get 0)) in H. by lazy in H.
  - vm_compute. reflexivity.
Defined.

(** ** Two medias with the same paths *)




(** ** Two runs and the files *)

Lemma last_save_app p S1 S2 :
  last_save p (S1 ++ S2)
  = match last_save p S2 with
    | Some doc => Some doc
    | None => last_save p S1
    end.
Proof.
  unfold last_save. rewrite filter_app, last_app.
  by destruct (last (filter _ S2)).
Qed.

Lemma written_app p S1 S2 fs fs' :
  fs' !! p = written p S1 fs → written p S2 fs' = written p (S1 ++ S2) fs.
Proof.
  intros H. unfold written. rewrite last_save_app.
  destruct (last_save p S2); [done|]. exact H.
Qed.

Lemma files_exported_written e locs frames w p :
  files (exported e locs frames w) !! p
  = written p ((λ frame, (xml_path (media_name e) frame, frame_doc e locs frame))
                 <$> frames) (files w).
Proof.
  induction frames as [|frame frames IH] using rev_ind; [done|].
  unfold exported. rewrite foldl_snoc. fold (exported e locs frames w).
  rewrite fmap_app. cbn [fmap list_fmap].
  rewrite <-(written_app _ _ _ _ _ IH). unfold written, last_save, saved. cbn [files].
  rewrite filter_cons, filter_nil. cbn [fst].
  case_decide as Hp.
  - subst p. by rewrite lookup_insert_eq.
  - rewrite lookup_insert_ne by done. done.
Qed.

Lemma process_media_written api DOWNLOAD e w p :
  files (downloaded api DOWNLOAD e w) !! p = files w !! p →
  (run (process_media api DOWNLOAD e) w).1 = Ok () →
  files (run (process_media api DOWNLOAD e) w).2 !! p
  = written p (entry_saves e) (files w).
Proof.
  intros Hd. rewrite process_media_run. unfold entry_saves, media_saves.
  destruct (rmap (reshape e) (localizations e)) as [locs|ex]; [|done].
  intros _. cbn [snd]. rewrite files_exported_written.
  unfold written. by rewrite Hd.
Qed.

Lemma annotate_written api DOWNLOAD entries w p :
  (∀ e w, e ∈ entries → files (downloaded api DOWNLOAD e w) !! p = files w !! p) →
  (run (download_and_annotate api DOWNLOAD entries) w).1 = Ok () →
  files (run (download_and_annotate api DOWNLOAD entries) w).2 !! p
  = written p (entries ≫= entry_saves) (files w).
Proof.
  unfold download_and_annotate. revert w.
  induction entries as [|e entries IH]; intros w Hd; [done|].
  rewrite mfor_cons, run_bind, bind_cons.
  pose proof (process_media_written api DOWNLOAD e w p) as He.
  destruct (run (process_media api DOWNLOAD e) w) as [[[]|ex] w1]; [|done].
  intros Hrest. rewrite IH; [|intros; apply Hd; by right|done].
  apply written_app. apply He; [|done]. apply Hd. left.
Qed.

(** A run that ended normally, as the collector and the loop through its
    entries. *)
Lemma notebook_Ok api DOWNLOAD PROJECT_ID MEDIA_LIST w w1 :
  run (notebook api DOWNLOAD PROJECT_ID MEDIA_LIST) w = (Ok (), w1) →
  ∃ w2,
    files w2 = files w ∧
    run (download_and_annotate api DOWNLOAD
           (collected_entry api PROJECT_ID
              <$> selected MEDIA_LIST (get_media_list api PROJECT_ID))) w2
    = (Ok (), w1).
Proof.
  rewrite notebook_run, run_bind.
  destruct (run (collect api PROJECT_ID MEDIA_LIST (get_media_list api PROJECT_ID))
              (checked api PROJECT_ID MEDIA_LIST w)) as [[c|ex] w2] eqn:Hc; [|done].
  apply mfold_collect_media_Ok in Hc as (Hes & _ & -> & _).
  cbn [fst snd app] in Hes. rewrite Hes. intros Hrun.
  eexists. split; [|exact Hrun]. done.
Qed.

Lemma downloaded_unchanged_at api DOWNLOAD e w p :
  (∀ frame, p ≠ image_path (media_name e) frame) →
  (∀ frame, p ≠ get_frame api (media_id e) [frame]) →
  files (downloaded api DOWNLOAD e w) !! p = files w !! p.
Proof.
  intros Himg Htmp. unfold downloaded.
  change (unchanged_at p w
            (run (download_frames api DOWNLOAD e)
               (emit (Print ("Downloading frames and annotations for:  "
                             +:+ media_name e)) w)).2).
  etrans; [|apply (preserves_mmap (unchanged_at p))].
  - done.
  - intros frame _. by apply unchanged_at_download_image.
Qed.

(** X21. The notebook, run with the flag on, is idempotent on the files:
    when no temporary file of the client is at an image path or at an
    annotation path, a second run after a run that ended normally leaves
    every file as the first run left it. *)
Theorem notebook_twice api PROJECT_ID MEDIA_LIST w w1 :
  (∀ media_id frame media_name frame',
     get_frame api media_id [frame] ≠ image_path media_name frame') →
  (∀ media_id frame media_name frame',
     get_frame api media_id [frame] ≠ xml_path media_name frame') →
  run (notebook api true PROJECT_ID MEDIA_LIST) w = (Ok (), w1) →
  files (run (notebook api true PROJECT_ID MEDIA_LIST) w1).2 = files w1.
Proof.
  intros Himg Hxml Hrun.
  rewrite (second_run_flag_off _ _ _ _ _ Himg Hrun).
  pose proof (notebook_result api false true PROJECT_ID MEDIA_LIST w1 w) as Hres.
  rewrite Hrun in Hres. cbn [fst] in Hres.
  destruct (run (notebook api false PROJECT_ID MEDIA_LIST) w1) as [r w3] eqn:Hrun2.
  cbn [fst snd] in *. subst r.
  apply notebook_Ok in Hrun as (w2 & Hw2 & Hann1).
  apply notebook_Ok in Hrun2 as (w2' & Hw2' & Hann2).
  set (entries := collected_entry api PROJECT_ID
                    <$> selected MEDIA_LIST (get_media_list api PROJECT_ID)) in *.
  apply map_eq. intros p.
  pose proof (annotate_written api false entries w2' p) as H2.
  rewrite Hann2 in H2. cbn [fst snd] in H2. rewrite H2; [|
    intros e w0 _; unfold downloaded; by rewrite download_frames_off|done].
  unfold written. destruct (last_save p (entries ≫= entry_saves)) as [doc|] eqn:Hlast;
    [|by rewrite Hw2'].
  pose proof (annotate_written api true entries w2 p) as H1.
  rewrite Hann1 in H1. cbn [fst snd] in H1. rewrite H1; [by unfold written; rewrite Hlast| |done].
  intros e0 w0 _.
  assert (∃ n frame, p = xml_path n frame) as (n & frame & ->).
  { unfold last_save in Hlast.
    destruct (last (filter (λ s, s.1 = p) (entries ≫= entry_saves))) as [s|] eqn:Hs;
      [|done].
    apply last_Some_elem_of, list_elem_of_filter in Hs as [<- Hin].
    apply list_elem_of_bind in Hin as (e & Hin & _). unfold entry_saves in Hin.
    destruct (rmap (reshape e) (localizations e)) as [locs|ex];
      [|by apply elem_of_nil in Hin].
    apply list_elem_of_fmap in Hin as (fr & -> & _). by eexists _, _. }
  apply downloaded_unchanged_at.
  - intros fr Heq. pose proof (PathFacts.xml_path_endswith n frame) as Hx.
    rewrite Heq, PathFacts.image_path_not_xml in Hx. done.
  - intros fr. apply not_eq_sym, Hxml.
Qed.

Lemma notebook_twice_witness :
  let w1 := (run (notebook Sample.api true 70 ["dive:1.mov"]) Sample.empty).2 in
  files (run (notebook Sample.api true 70 ["dive:1.mov"]) w1).2 = files w1.
Proof.
  apply (notebook_twice Sample.api 70 ["dive:1.mov"] Sample.empty).
  - intros media_id frame media_name frame' H.
    apply (f_equal (String.get 0)) in H. by lazy in H.
  - intros media_id frame media_name frame' H.
    apply (f_equal (String.get 0)) in H. by lazy in H.
  - vm_compute. reflexivity.
Defined.
